(** * gomusic: the playback queue of the terminal music player

    A shallow embedding of [main.go]: the [track] and [tracksQueue] structs,
    [loadTrack], and the queue methods (add, remove, next, previous, restart,
    volume), followed by the properties of the specification that concern
    them.

    Conventions.
    - A Go [int] is a [Z]; every addition or subtraction the source performs
      goes through [GoInt.add] / [GoInt.sub], which wrap at 64 bits.
    - A method that can panic (index out of range, nil stream) returns
      [option]: [None] is the panic.
    - [float64] and the functions of package [math] are an interface
      ([Float64]); nothing is assumed about their rounding.
    - The objects behind pointers that the methods reach (the mp3 decoders
      behind [track.stream], the calls made on package [speaker]) are fields
      of the state of their own, so that two queue entries holding the same
      decoder see each other's seeks. *)

From Stdlib Require Import ZArith Lia Ascii String.
From stdpp Require Import base decidable option list gmap strings pretty.

Local Open Scope Z_scope.

(** ** Go integers *)

Module GoInt.

Definition min_int : Z := - 2 ^ 63.
Definition max_int : Z := 2 ^ 63 - 1.

(** Two's complement wrap-around of a 64-bit signed integer. *)
Definition wrap (z : Z) : Z := (z + 2 ^ 63) mod 2 ^ 64 - 2 ^ 63.

Definition add (a b : Z) : Z := wrap (a + b).
Definition sub (a b : Z) : Z := wrap (a - b).

Definition in_range (z : Z) : Prop := min_int <= z <= max_int.

End GoInt.

(** ** float64 and package math

    The operations [changeVolume] and [getVolumePercents] use, as an
    interface. *)

Class Float64 := {
  float64 : Type;
  (** the conversion [float64(n)], also used for the constants 0, 2, 10, 100 *)
  float64_of_int : Z -> float64;
  f_add : float64 -> float64 -> float64;
  f_sub : float64 -> float64 -> float64;
  f_mul : float64 -> float64 -> float64;
  math_Log10 : float64 -> float64;
  math_Pow : float64 -> float64 -> float64;
  math_Round : float64 -> float64;
  (** the conversion [int(x)] *)
  int_of_float64 : float64 -> Z;
}.

(** ** path/filepath, on Unix *)

Definition isPathSeparator (c : ascii) : bool := Ascii.eqb c "/"%char.

Fixpoint drop_separators (l : list ascii) : list ascii :=
  match l with
  | c :: r => if isPathSeparator c then drop_separators r else l
  | [] => []
  end.

Fixpoint take_element (l : list ascii) : list ascii :=
  match l with
  | c :: r => if isPathSeparator c then [] else c :: take_element r
  | [] => []
  end.

(** [filepath.Base]: the last element of the path, trailing separators
    removed; "." for the empty path and "/" for a path of separators only.
    The scan runs over the reversed string, as the library's loops run from
    the end. *)
Definition filepath_Base (p : string) : string :=
  match p with
  | EmptyString => "."%string
  | _ =>
    match take_element (drop_separators (rev (list_ascii_of_string p))) with
    | [] => "/"%string
    | e => string_of_list_ascii (rev e)
    end
  end.

(** The loop of [filepath.Ext] from the last byte towards the first: stop at
    a separator (no extension), return the suffix at the first dot met. *)
Fixpoint ext_scan (rev_path : list ascii) (suffix : list ascii) : list ascii :=
  match rev_path with
  | c :: r =>
    if isPathSeparator c then []
    else if Ascii.eqb c "."%char then c :: suffix
    else ext_scan r (c :: suffix)
  | [] => []
  end.

Definition filepath_Ext (p : string) : string :=
  string_of_list_ascii (ext_scan (rev (list_ascii_of_string p)) []).

(** ** Constants of the program *)

Definition supportedFormats : list string := ["mp3"%string].

(** sample rate for mp3 *)
Definition basicSampleRate : Z := 44100.

(** ** Audio objects of package beep *)

(** A decoder object is named by a handle; [track.stream] holds one, or nil. *)
Definition handle := nat.

(** Modelled from the spec: the decoder capability, a source that exposes
    [position()], [length()], [seek(offset)] and [close()]. *)
Record decoder := mkDecoder {
  position : Z;
  length_ : Z;
  closed : bool;
}.

(** [Seek(p)]: on an open decoder and an offset within [0, Len()] the
    position becomes [p]; otherwise the call returns an error, which every
    caller in this program discards, and the decoder is unchanged. *)
Definition decoder_Seek (d : decoder) (p : Z) : decoder :=
  if closed d then d
  else if decide (0 <= p <= length_ d) then mkDecoder p (length_ d) false
  else d.

Definition decoder_Close (d : decoder) : decoder :=
  mkDecoder (position d) (length_ d) true.

(** [beep.Format] *)
Record Format := mkFormat {
  SampleRate : Z;
  NumChannels : Z;
  Precision : Z;
}.

Definition Format_zero : Format := mkFormat 0 0 0.

(** Modelled from the spec: the resampler capability,
    [resample(quality, from_rate, to_rate, source) -> streamer]. The
    streamer returned is described by the four arguments of the call. *)
Record Resampler := mkResampler {
  quality : Z;
  from_rate : Z;
  to_rate : Z;
  source : option handle;
}.

Definition beep_Resample (q old new : Z) (s : option handle) : Resampler :=
  mkResampler q old new s.

Set Warnings "-register-all".

(** [beep.Streamer] values this program builds: a track's resampled view (or
    nil), [beep.Callback] posting a message to the event loop, [beep.Seq]. *)
Inductive Streamer :=
| Resampled (r : option Resampler)
| Callback (msg : string)
| Seq (ss : list Streamer).

(** What a streamer plays, in order: [beep.Seq] streams its arguments one
    after the other. *)
Fixpoint play_order (s : Streamer) : list Streamer :=
  match s with
  | Seq ss => flat_map play_order ss
  | leaf => [leaf]
  end.

(** ** Music track *)

Record track := mkTrack {
  path : string;
  stream : option handle;
  resampled : option Resampler;
  format : Format;
  ended : bool;
}.

(** [track{}] *)
Definition track_zero : track := mkTrack ""%string None None Format_zero false.

Definition set_ended (b : bool) (t : track) : track :=
  mkTrack (path t) (stream t) (resampled t) (format t) b.

Definition set_resampled (r : option Resampler) (t : track) : track :=
  mkTrack (path t) (stream t) r (format t) (ended t).

Inductive error :=
| errFormatUnsupported
| errFileIsNotTrack
| externalError (msg : string).

(** ** loadTrack *)

(** The results of the calls [loadTrack] makes outside the program, per
    argument. [mp3_Decode] returns its three results as Go does: whatever
    streamer and format come with a non-nil error are not looked at here. *)
Record os_env := mkEnv {
  os_Open : string -> error + nat;
  file_Stat : nat -> error + bool;   (* the bool is [IsDir()] *)
  mp3_Decode : nat -> option handle * Format * option error;
}.

Definition slices_Contains (l : list string) (x : string) : bool :=
  bool_decide (x ∈ l).

Definition tail_string (s : string) : string :=
  match s with
  | EmptyString => EmptyString
  | String _ r => r
  end.

Definition loadTrack (env : os_env) (trackPath : string) : track * option error :=
  let fileFormat := filepath_Ext trackPath in
  let fileFormat :=
    if decide (fileFormat = ""%string) then fileFormat else tail_string fileFormat in
  if negb (slices_Contains supportedFormats fileFormat) then
    (track_zero, Some errFormatUnsupported)
  else
    match os_Open env trackPath with
    | inl err => (track_zero, Some err)
    | inr f =>
      match file_Stat env f with
      | inl err => (track_zero, Some err)
      | inr isDir =>
        if isDir then (track_zero, Some errFileIsNotTrack)
        else
          let '(streamer, fmt, err) := mp3_Decode env f in
          let s :=
            mkTrack trackPath streamer
                    (Some (beep_Resample 4 (SampleRate fmt) basicSampleRate streamer))
                    fmt false in
          match err with
          | Some e => (track_zero, Some e)
          | None => (s, None)
          end
      end
    end.

(** ** The queue *)

Section Engine.

Context {F : Float64}.

(** [beep.Ctrl] *)
Record Ctrl := mkCtrl {
  ctrl_Streamer : option Streamer;
  ctrl_Paused : bool;
}.

(** [effects.Volume]; its [Streamer] field is always the queue's [ctrl]. *)
Record Volume := mkVolume {
  vol_Base : float64;
  vol_Volume : float64;
  vol_Silent : bool;
}.

(** Calls on package [speaker]; [Play] is always [speaker.Play(&s.volume)]. *)
Inductive speaker_call := Lock | Unlock | Clear | Play.

(** The struct [tracksQueue], with the two parts of the world its methods
    act on: the decoder objects and the calls made on the speaker, oldest
    first. *)
Record tracksQueue := mkQueue {
  queue : list track;
  (* stream controller. allows to pause and resume tracks *)
  ctrl : Ctrl;
  (* stream volume. allows to control volume *)
  volume : Volume;
  (* current track index in queue *)
  currentTrack : Z;
  speakerInitialized : bool;
  (* change of the volume in percents, for example 100 means current volume is 200% *)
  volumeChange : Z;
  decoders : gmap handle decoder;
  speaker : list speaker_call;
}.

Definition set_queue (q : list track) (s : tracksQueue) : tracksQueue :=
  mkQueue q (ctrl s) (volume s) (currentTrack s) (speakerInitialized s)
          (volumeChange s) (decoders s) (speaker s).

Definition set_ctrl (c : Ctrl) (s : tracksQueue) : tracksQueue :=
  mkQueue (queue s) c (volume s) (currentTrack s) (speakerInitialized s)
          (volumeChange s) (decoders s) (speaker s).

Definition set_volume (v : Volume) (s : tracksQueue) : tracksQueue :=
  mkQueue (queue s) (ctrl s) v (currentTrack s) (speakerInitialized s)
          (volumeChange s) (decoders s) (speaker s).

Definition set_currentTrack (i : Z) (s : tracksQueue) : tracksQueue :=
  mkQueue (queue s) (ctrl s) (volume s) i (speakerInitialized s)
          (volumeChange s) (decoders s) (speaker s).

Definition set_volumeChange (d : Z) (s : tracksQueue) : tracksQueue :=
  mkQueue (queue s) (ctrl s) (volume s) (currentTrack s) (speakerInitialized s)
          d (decoders s) (speaker s).

Definition set_decoders (m : gmap handle decoder) (s : tracksQueue) : tracksQueue :=
  mkQueue (queue s) (ctrl s) (volume s) (currentTrack s) (speakerInitialized s)
          (volumeChange s) m (speaker s).

(** The program calls the speaker: the calls are appended to the log. *)
Definition call_speaker (cs : list speaker_call) (s : tracksQueue) : tracksQueue :=
  mkQueue (queue s) (ctrl s) (volume s) (currentTrack s) (speakerInitialized s)
          (volumeChange s) (decoders s) (speaker s ++ cs).

Definition newTrackQueue : tracksQueue :=
  mkQueue [] (mkCtrl None false)
          (mkVolume (float64_of_int 10) (float64_of_int 0) false)
          0 false 0 ∅ [].

(** [s.len()] *)
Definition len (s : tracksQueue) : Z := Z.of_nat (length (queue s)).

(** [l[i]] for a Go int [i]: a panic outside [0, len(l)). *)
Definition index {A} (l : list A) (i : Z) : option A :=
  if decide (0 <= i < Z.of_nat (length l)) then l !! Z.to_nat i else None.

(** [l[i] = x] in place, for an index already checked by [index]. *)
Definition store {A} (l : list A) (i : Z) (x : A) : list A :=
  <[Z.to_nat i := x]> l.

Definition getTracks (s : tracksQueue) : list track := queue s.

Fixpoint hasTrack_loop (q : list track) (trackPath : string) : bool :=
  match q with
  | t :: r => if decide (path t = trackPath) then true else hasTrack_loop r trackPath
  | [] => false
  end.

Definition hasTrack (s : tracksQueue) (trackPath : string) : bool :=
  hasTrack_loop (queue s) trackPath.

Definition getCurrentTrack (s : tracksQueue) : option (track * bool) :=
  if decide (len s = 0) then Some (track_zero, false)
  else t ← index (queue s) (currentTrack s); Some (t, true).

Definition getCurrentTrackIndex (s : tracksQueue) : Z := currentTrack s.

(** One turn of the loop of [rebuildStreamer]. *)
Definition rebuild_step (streamers : list Streamer) (t : track) : list Streamer :=
  if negb (ended t) then
    streamers ++ [Seq [Resampled (resampled t); Callback "f"%string]]
  else streamers.

(** rebuilds stream sequence *)
Definition rebuildStreamer (s : tracksQueue) : tracksQueue :=
  let streamers := fold_left rebuild_step (queue s) [] in
  let stream := Seq streamers in
  call_speaker [Lock; Unlock]
    (set_ctrl (mkCtrl (Some stream) (ctrl_Paused (ctrl s))) s).

(** [append]: a slice holds at most [max_int] elements. *)
Definition go_append {A} (l : list A) (x : A) : option (list A) :=
  if decide (Z.of_nat (length l) < GoInt.max_int) then Some (l ++ [x]) else None.

Definition addTrack (s : tracksQueue) (t : track) : option tracksQueue :=
  q ← go_append (queue s) t;
  Some (rebuildStreamer (set_queue q s)).

Definition play (s : tracksQueue) : tracksQueue :=
  let s := call_speaker [Clear] s in
  if decide (len s ≠ 0) then call_speaker [Play] s else s.

Definition nextTrack (s : tracksQueue) : option tracksQueue :=
  s1 ← (if decide (len s ≠ 0) then
          t ← index (queue s) (currentTrack s);
          Some (set_queue (store (queue s) (currentTrack s) (set_ended true t)) s)
        else Some s);
  if decide (GoInt.add (currentTrack s1) 1 >= len s1) then Some s1
  else
    let s2 := set_currentTrack (GoInt.add (currentTrack s1) 1) s1 in
    let s3 := rebuildStreamer s2 in
    let s4 := call_speaker [Clear] s3 in
    Some (play s4).

Definition prevTrack (s : tracksQueue) : option tracksQueue :=
  if decide (GoInt.sub (currentTrack s) 1 < 0) then Some s
  else
    let s1 := set_currentTrack (GoInt.sub (currentTrack s) 1) s in
    t ← index (queue s1) (currentTrack s1);
    let s2 := set_queue (store (queue s1) (currentTrack s1) (set_ended false t)) s1 in
    let s3 := rebuildStreamer s2 in
    let s4 := call_speaker [Clear] s3 in
    Some (play s4).

Definition restartTrack (s : tracksQueue) (i : Z) : option tracksQueue :=
  currentSong ← index (queue s) i;
  let currentSong := set_ended false currentSong in
  let s1 := set_queue (store (queue s) i currentSong) s in
  h ← stream currentSong;
  d ← decoders s1 !! h;
  let ended := bool_decide (position d = length_ d) in
  let s2 := set_decoders (<[h := decoder_Seek d 0]> (decoders s1)) s1 in
  if ended then
    let s3 := call_speaker [Lock] s2 in
    let currentSong :=
      set_resampled
        (Some (beep_Resample 4 basicSampleRate (SampleRate (format currentSong))
                             (stream currentSong)))
        currentSong in
    let s4 := set_queue (store (queue s3) i currentSong) s3 in
    let s5 := call_speaker [Unlock] s4 in
    let s6 := rebuildStreamer s5 in
    Some (play s6)
  else Some s2.

Definition restartCurrentTrack (s : tracksQueue) : option tracksQueue :=
  if decide (len s = 0) then Some s else restartTrack s (currentTrack s).

(** The loop of [restartQueue] over the indices of the queue. *)
Fixpoint restartQueue_loop (idx : list nat) (s : tracksQueue) : option tracksQueue :=
  match idx with
  | i :: r => s' ← restartTrack s (Z.of_nat i); restartQueue_loop r s'
  | [] => Some s
  end.

Definition restartQueue (s : tracksQueue) : option tracksQueue :=
  s1 ← restartQueue_loop (seq 0 (length (queue s))) s;
  Some (rebuildStreamer (set_currentTrack 0 s1)).

Definition changeVolume (s : tracksQueue) (percents : Z) : tracksQueue :=
  if decide (GoInt.add (volumeChange s) percents < -100) then s
  else
    let s1 := set_volumeChange (GoInt.add (volumeChange s) percents) s in
    let s2 :=
      set_volume
        (mkVolume (vol_Base (volume s1)) (vol_Volume (volume s1))
                  (bool_decide (volumeChange s1 = -100))) s1 in
    (* s.volume.Volume is just a power of base number
       that's how we calculate needed volume for our percent *)
    let s3 :=
      set_volume
        (mkVolume (vol_Base (volume s2))
                  (f_sub (math_Log10 (f_add (float64_of_int 100)
                                            (float64_of_int (volumeChange s2))))
                         (float64_of_int 2))
                  (vol_Silent (volume s2))) s2 in
    call_speaker [Clear; Play] s3.

Definition getVolumePercents (s : tracksQueue) : Z :=
  int_of_float64
    (math_Round (f_mul (float64_of_int 100)
                       (math_Pow (vol_Base (volume s)) (vol_Volume (volume s))))).

Definition unpause (s : tracksQueue) : tracksQueue :=
  call_speaker [Lock; Unlock]
    (set_ctrl (mkCtrl (ctrl_Streamer (ctrl s)) false) s).

Definition pause (s : tracksQueue) : tracksQueue :=
  call_speaker [Lock; Unlock]
    (set_ctrl (mkCtrl (ctrl_Streamer (ctrl s)) true) s).

Definition paused (s : tracksQueue) : bool := ctrl_Paused (ctrl s).

(** The loop of [removeTrack]: the index of the first track whose base name
    is [trackName] (-1 when there is none) and the value of [prev] when the
    loop ends. *)
Fixpoint removeTrack_loop (q : list track) (trackName : string) (i prev : Z) : Z * Z :=
  match q with
  | t :: r =>
    if decide (filepath_Base (path t) = trackName) then (i, prev)
    else removeTrack_loop r trackName (i + 1) i
  | [] => (-1, prev)
  end.

(** [slices.Delete(s, i, j)]: a panic unless [0 <= i <= j <= len(s)]. *)
Definition slices_Delete {A} (l : list A) (i j : Z) : option (list A) :=
  if decide (0 <= i <= j /\ j <= Z.of_nat (length l)) then
    Some (take (Z.to_nat i) l ++ drop (Z.to_nat j) l)
  else None.

Definition removeTrack (s : tracksQueue) (trackName : string) : option tracksQueue :=
  let '(trackIndex, prev) := removeTrack_loop (queue s) trackName 0 0 in
  if decide (trackIndex = -1) then Some s
  else
    let s1 := set_currentTrack prev s in
    q ← slices_Delete (queue s1) trackIndex (GoInt.add trackIndex 1);
    Some (set_queue q s1).

(** The loop of [clear]: close every track's stream. *)
Fixpoint clear_loop (q : list track) (m : gmap handle decoder) : option (gmap handle decoder) :=
  match q with
  | t :: r =>
    h ← stream t;
    d ← m !! h;
    clear_loop r (<[h := decoder_Close d]> m)
  | [] => Some m
  end.

(** releases all resources and cleans queue *)
Definition clear (s : tracksQueue) : option tracksQueue :=
  m ← clear_loop (queue s) (decoders s);
  let s1 := set_decoders m s in
  let s2 := call_speaker [Lock] s1 in
  let s3 := set_ctrl (mkCtrl None (ctrl_Paused (ctrl s2))) s2 in
  let s4 := call_speaker [Unlock] s3 in
  Some (set_queue [] (set_currentTrack 0 s4)).

End Engine.

(** ** Runs of the engine *)

Section Runs.

Context {F : Float64}.

(** The calls the controller makes on the queue. *)
Inductive op :=
| OpAdd (t : track)
| OpRemove (name : string)
| OpNext
| OpPrev
| OpRestart
| OpRestartTrack (i : Z)
| OpRestartAll
| OpClear
| OpPlay
| OpPause
| OpUnpause
| OpChangeVolume (percents : Z).

Definition exec (o : op) (s : tracksQueue) : option tracksQueue :=
  match o with
  | OpAdd t => addTrack s t
  | OpRemove name => removeTrack s name
  | OpNext => nextTrack s
  | OpPrev => prevTrack s
  | OpRestart => restartCurrentTrack s
  | OpRestartTrack i => restartTrack s i
  | OpRestartAll => restartQueue s
  | OpClear => clear s
  | OpPlay => Some (play s)
  | OpPause => Some (pause s)
  | OpUnpause => Some (unpause s)
  | OpChangeVolume p => Some (changeVolume s p)
  end.

(** What one track contributes to the composite stream: its resampled view,
    then the callback that posts "f" to the event loop. *)
Definition track_streamer (t : track) : Streamer :=
  Seq [Resampled (resampled t); Callback "f"%string].

(** The track's base file name is [name]. *)
Definition named (name : string) (t : track) : Prop :=
  filepath_Base (path t) = name.

(** The sink pulls [n] samples of a decoder: its position moves towards its
    length and stops there. *)
Definition decoder_pull (d : decoder) (n : Z) : decoder :=
  mkDecoder (Z.max (position d) (Z.min (length_ d) (position d + n)))
            (length_ d) (closed d).

(** States reachable from the empty queue: by the calls of the controller
    that return, by [mp3.Decode] creating a decoder, and by the sink
    consuming samples between two calls. *)
Inductive reachable : tracksQueue -> Prop :=
| reach_new : reachable newTrackQueue
| reach_op s o s' : reachable s -> exec o s = Some s' -> reachable s'
| reach_decode s h d :
    reachable s -> decoders s !! h = None ->
    reachable (set_decoders (<[h := d]> (decoders s)) s)
| reach_pull s h d n :
    reachable s -> decoders s !! h = Some d -> 0 <= n ->
    reachable (set_decoders (<[h := decoder_pull d n]> (decoders s)) s).

(** The data model of the queue: [currentTrack] is an index of the queue,
    or 0 when the queue is empty, and the queue fits a Go slice. *)
Definition well_formed (s : tracksQueue) : Prop :=
  0 <= currentTrack s /\
  (queue s = [] -> currentTrack s = 0) /\
  (queue s <> [] -> currentTrack s < len s) /\
  len s <= GoInt.max_int.

(** The position of the track's decoder equals its length. *)
Definition at_end (m : gmap handle decoder) (t : track) : Prop :=
  exists h d, stream t = Some h /\ m !! h = Some d /\ position d = length_ d.

(** [ended == true] implies [source.position() == source.length()]. *)
Definition ended_at_end (s : tracksQueue) : Prop :=
  forall (i : nat) t, queue s !! i = Some t -> ended t = true -> at_end (decoders s) t.



End Runs.

(** ** A run-time for examples

    [float64] values as the expressions that compute them. The examples
    below never convert one to [int]. *)

Inductive fterm :=
| FInt (z : Z)
| FAdd (a b : fterm)
| FSub (a b : fterm)
| FMul (a b : fterm)
| FLog10 (a : fterm)
| FPow (a b : fterm)
| FRound (a : fterm).

#[export] Instance fterm_Float64 : Float64 := {|
  float64 := fterm;
  float64_of_int := FInt;
  f_add := FAdd;
  f_sub := FSub;
  f_mul := FMul;
  math_Log10 := FLog10;
  math_Pow := FPow;
  math_Round := FRound;
  int_of_float64 := fun _ => 0;
|}.

Module Examples.

(** A 48 kHz file of 10 samples, as [loadTrack] returns it. *)
Definition song (p : string) (h : handle) : track :=
  mkTrack p (Some h) (Some (beep_Resample 4 48000 basicSampleRate (Some h)))
          (mkFormat 48000 2 2) false.

Definition fresh : decoder := mkDecoder 0 10 false.
Definition half_played : decoder := mkDecoder 5 10 false.
Definition played : decoder := mkDecoder 10 10 false.

(** A queue holding [q], at index [cur], with the decoders [ds] for the
    handles 0, 1, ... *)
Definition queue_of (q : list track) (cur : Z) (ds : list decoder) : tracksQueue :=
  mkQueue q (mkCtrl None false)
          (mkVolume (float64_of_int 10) (float64_of_int 0) false)
          cur false 0 (list_to_map (zip (seq 0 (length ds)) ds)) [].

Definition a_mp3 : track := song "/music/a.mp3" 0%nat.
Definition b_mp3 : track := song "/music/b.mp3" 1%nat.
Definition c_mp3 : track := song "/music/c.mp3" 2%nat.


(** Every file decodes to a 48 kHz stream behind handle 0. *)
Definition good_env : os_env :=
  mkEnv (fun _ => inr 3%nat) (fun _ => inr false)
        (fun _ => (Some 0%nat, mkFormat 48000 2 2, None)).

(** [mp3.Decode] has created decoder 0; nothing is queued yet. *)
Definition loaded : tracksQueue :=
  set_decoders {[ 0%nat := fresh ]} newTrackQueue.

(** ... then [addTrack(a.mp3)] ... *)
Definition enqueued : tracksQueue := rebuildStreamer (set_queue [a_mp3] loaded).


(** A track marked ended whose decoder is half way. *)
Definition mid_song : tracksQueue :=
  queue_of [set_ended true a_mp3] 0 [half_played].

(** A track marked ended whose decoder has reached its length. *)
Definition finished : tracksQueue :=
  queue_of [set_ended true a_mp3] 0 [played].

(** Three tracks, the last one current. *)
Definition abc : tracksQueue :=
  queue_of [a_mp3; b_mp3; c_mp3] 2 [fresh; fresh; fresh].

End Examples.

(** ** The sink and the installed stream *)

Section Sink.

Context {F : Float64}.

(** Modelled from the spec: the sink capability. [speaker.Clear] drops every
    streamer the speaker plays, [speaker.Play] adds one; the number of
    streamers playing after the calls of a log. *)
Definition speaker_playing (log : list speaker_call) : nat :=
  fold_left (fun n c => match c with
                        | Clear => 0%nat
                        | Play => S n
                        | _ => n
                        end) log 0%nat.

(** The stream installed in [ctrl] plays the tracks of the queue that are
    not ended, as they are now. *)
Definition in_sync (s : tracksQueue) : Prop :=
  play_order <$> ctrl_Streamer (ctrl s) =
  Some (flat_map (fun t => [Resampled (resampled t); Callback "f"%string])
                 (filter (fun t => ended t = false) (queue s))).

(** The calls that leave the pause flag alone. *)
Definition not_pause (o : op) : Prop :=
  match o with
  | OpPause | OpUnpause => False
  | _ => True
  end.

(** What the gain stage holds in every reachable state. *)
Definition gain_consistent (s : tracksQueue) : Prop :=
  -100 <= volumeChange s <= GoInt.max_int /\
  vol_Silent (volume s) = bool_decide (volumeChange s = -100) /\
  vol_Base (volume s) = float64_of_int 10.

End Sink.

(** ** The controller *)

#[export] Instance error_eq_dec : EqDecision error.
Proof. solve_decision. Defined.

Section Controller.

Context {F : Float64}.

Record appState := mkApp {
  cursor : Z;
  currentDir : string;
  choices : list string;
  app_tracksQueue : tracksQueue;
  showHelp : bool;
}.

Definition set_cursor (c : Z) (a : appState) : appState :=
  mkApp c (currentDir a) (choices a) (app_tracksQueue a) (showHelp a).

Definition set_app_tracksQueue (tq : tracksQueue) (a : appState) : appState :=
  mkApp (cursor a) (currentDir a) (choices a) tq (showHelp a).

(** [tea.Msg]: a string (the end-of-track callback sends "f"), a key press
    (by [msg.String()]), or anything else. *)
Inductive Msg :=
| MsgString (m : string)
| MsgKey (key : string)
| MsgOther.

(** [tea.Cmd]: nil or [tea.Quit]. *)
Inductive Cmd := CmdNil | CmdQuit.

(** What the controller reaches outside the program: the files ([os.Open],
    [Stat], [mp3.Decode], [os.ReadDir]), [filepath.Join] and [filepath.Dir],
    and the decoder object a successful [mp3.Decode] has created behind the
    handle it returns. Directory listings do not change between two reads. *)
Record ui_env := mkUiEnv {
  ui_os : os_env;
  os_ReadDir : string -> error + list string;
  filepath_Join : string -> string -> string;
  filepath_Dir : string -> string;
  mp3_decoder : handle -> decoder;
}.

(** [exitError] panics. *)
Definition exitError {A} (err : error) : option A := None.

Definition goUpDir (env : ui_env) (a : appState) : appState :=
  let newDir := filepath_Dir env (currentDir a) in
  let a := if decide (newDir <> currentDir a) then set_cursor 0 a else a in
  mkApp (cursor a) newDir (choices a) (app_tracksQueue a) (showHelp a).

Definition goToCursorDir (env : ui_env) (a : appState) : option appState :=
  if decide (length (choices a) = 0%nat) then Some a
  else
    currentChoice ← index (choices a) (cursor a);
    let newDir := filepath_Join env (currentDir a) currentChoice in
    match os_Open (ui_os env) newDir with
    | inl err => exitError err
    | inr file =>
      match file_Stat (ui_os env) file with
      | inl err => exitError err
      | inr isDir =>
        if isDir then
          Some (mkApp 0 newDir (choices a) (app_tracksQueue a) (showHelp a))
        else Some a
      end
    end.

Definition updateChoices (env : ui_env) (a : appState) : option appState :=
  match os_ReadDir env (currentDir a) with
  | inl err => exitError err
  | inr files =>
    Some (mkApp (cursor a) (currentDir a) files (app_tracksQueue a) (showHelp a))
  end.

(** [releaseResources] has a value receiver: [clear] runs on a copy of the
    queue struct. What the caller sees afterwards is what [clear] did behind
    pointers (the shared [ctrl], the decoders, the speaker); its own [queue]
    and [currentTrack] fields are as before. *)
Definition releaseResources (a : appState) : option appState :=
  let tq := app_tracksQueue a in
  c ← clear tq;
  Some (set_app_tracksQueue
          (mkQueue (queue tq) (ctrl c) (volume tq) (currentTrack tq)
                   (speakerInitialized tq) (volumeChange tq)
                   (decoders c) (speaker c)) a).

Definition key_is (key : string) (cases : list string) : bool :=
  bool_decide (key ∈ cases).

(** A queue method called on [a.tracksQueue]; [Update] then returns
    [a, nil]. *)
Definition on_queue (f : tracksQueue -> option tracksQueue) (a : appState)
  : option (appState * Cmd) :=
  tq ← f (app_tracksQueue a);
  Some (set_app_tracksQueue tq a, CmdNil).

(** The decoder [mp3.Decode] created for a loaded track enters the world. *)
Definition register_decoder (env : ui_env) (t : track) (s : tracksQueue) : tracksQueue :=
  match stream t with
  | Some h => set_decoders (<[h := mp3_decoder env h]> (decoders s)) s
  | None => s
  end.

(** The case of the space key: queue the file under the cursor. *)
Definition Update_space (env : ui_env) (a : appState) : option (appState * Cmd) :=
  if decide (length (choices a) = 0%nat) then Some (a, CmdNil)
  else
    choice ← index (choices a) (cursor a);
    let trackPath := filepath_Join env (currentDir a) choice in
    if hasTrack (app_tracksQueue a) trackPath then Some (a, CmdNil)
    else
      let '(t, err) := loadTrack (ui_os env) trackPath in
      if bool_decide (err = Some errFormatUnsupported) then Some (a, CmdNil)
      else if bool_decide (err = Some errFileIsNotTrack) then Some (a, CmdNil)
      else
        match err with
        | Some _ => a' ← releaseResources a; Some (a', CmdQuit)
        | None =>
          tq ← addTrack (register_decoder env t (app_tracksQueue a)) t;
          let a := set_app_tracksQueue (play tq) a in
          if decide (GoInt.add (cursor a) 1 < Z.of_nat (length (choices a)))
          then Some (set_cursor (GoInt.add (cursor a) 1) a, CmdNil)
          else Some (a, CmdNil)
        end.

Definition Update_key (env : ui_env) (a : appState) (key : string)
  : option (appState * Cmd) :=
  if key_is key ["ctrl+c"; "q"]%string then
    a' ← releaseResources a; Some (a', CmdQuit)
  else if key_is key ["up"; "k"]%string then
    if decide (cursor a > 0) then Some (set_cursor (GoInt.sub (cursor a) 1) a, CmdNil)
    else Some (a, CmdNil)
  else if key_is key ["r"]%string then on_queue restartCurrentTrack a
  else if key_is key ["R"]%string then on_queue restartQueue a
  else if key_is key ["d"]%string then
    if decide (length (choices a) <> 0%nat) then
      name ← index (choices a) (cursor a);
      on_queue (fun tq => removeTrack tq name) a
    else Some (a, CmdNil)
  else if key_is key ["down"; "j"]%string then
    if decide (cursor a < GoInt.sub (Z.of_nat (length (choices a))) 1)
    then Some (set_cursor (GoInt.add (cursor a) 1) a, CmdNil)
    else Some (a, CmdNil)
  else if key_is key ["f"]%string then on_queue nextTrack a
  else if key_is key ["F"]%string then on_queue prevTrack a
  else if key_is key ["-"]%string then
    a' ← updateChoices env (goUpDir env a); Some (a', CmdNil)
  else if key_is key [" "]%string then Update_space env a
  else if key_is key ["c"]%string then on_queue clear a
  else if key_is key ["p"]%string then
    if decide (length (choices a) = 0%nat) then Some (a, CmdNil)
    else if paused (app_tracksQueue a)
         then on_queue (fun tq => Some (unpause tq)) a
         else on_queue (fun tq => Some (pause tq)) a
  else if key_is key ["]"]%string then
    on_queue (fun tq => Some (changeVolume tq 10)) a
  else if key_is key ["["]%string then
    on_queue (fun tq => Some (changeVolume tq (-10))) a
  else if key_is key ["?"]%string then
    Some (mkApp (cursor a) (currentDir a) (choices a) (app_tracksQueue a)
                (negb (showHelp a)), CmdNil)
  else if key_is key ["enter"]%string then
    a1 ← goToCursorDir env a; a2 ← updateChoices env a1; Some (a2, CmdNil)
  else Some (a, CmdNil).

Definition Update (env : ui_env) (a : appState) (msg : Msg)
  : option (appState * Cmd) :=
  match msg with
  | MsgString _ => on_queue nextTrack a
  | MsgKey key => Update_key env a key
  | MsgOther => Some (a, CmdNil)
  end.

(** The model [main] hands to the program: the queue is new, the listing is
    that of the start directory. *)
Definition initial_model (env : ui_env) (directoryPath : string) : option appState :=
  updateChoices env (mkApp 0 directoryPath [] newTrackQueue false).

(** The states of the controller: the initial model, the models [Update]
    returns, and the sink consuming samples in between. *)
Inductive ui_reachable (env : ui_env) : appState -> Prop :=
| ui_init dir a : initial_model env dir = Some a -> ui_reachable env a
| ui_update a msg a' cmd :
    ui_reachable env a -> Update env a msg = Some (a', cmd) -> ui_reachable env a'
| ui_pull a h d n :
    ui_reachable env a ->
    decoders (app_tracksQueue a) !! h = Some d -> 0 <= n ->
    ui_reachable env
      (set_app_tracksQueue
         (set_decoders (<[h := decoder_pull d n]> (decoders (app_tracksQueue a)))
                       (app_tracksQueue a)) a).

(** The cursor is a row of the listing, or 0 on an empty listing, and the
    listing is that of the current directory. *)
Definition cursor_ok (env : ui_env) (a : appState) : Prop :=
  os_ReadDir env (currentDir a) = inr (choices a) /\
  0 <= cursor a /\
  (choices a = [] -> cursor a = 0) /\
  (choices a <> [] -> cursor a < Z.of_nat (length (choices a))) /\
  Z.of_nat (length (choices a)) <= GoInt.max_int.

(** *** View *)

Definition nl : string := String (ascii_of_nat 10) EmptyString.

Definition help_text : string :=
  ("controls:" +:+ nl +:+ nl +:+
   "(k) or (arrow up) up" +:+ nl +:+
   "(j) or (arrow down) down" +:+ nl +:+
   "(f) next track" +:+ nl +:+
   "(F) previous track" +:+ nl +:+
   "([) volume down" +:+ nl +:+
   "(]) volume up" +:+ nl +:+
   "(p) pause/unpause" +:+ nl +:+
   "(c) clear track queue" +:+ nl +:+
   "(r) restart current track" +:+ nl +:+
   "(R) restart queue" +:+ nl +:+
   "(<Space>) add track to queue" +:+ nl +:+
   "(d) remove track from queue" +:+ nl +:+
   "(<Enter>) enter directory" +:+ nl +:+
   "(-) directory up" +:+ nl +:+
   nl +:+ "Press q to quit, ? to toggle help" +:+ nl)%string.

Definition choicesWindowSize : Z := 16.

(** The rows [View] renders: from [choicesWindowStart] up to, not including,
    [choicesWindowEnd]. *)
Definition View_window (a : appState) : Z * Z :=
  let choicesWindowStart := 0 in
  let choicesWindowEnd := Z.of_nat (length (choices a)) in
  let choicesWindowStart :=
    if decide (GoInt.sub (cursor a) (Z.quot choicesWindowSize 2) > choicesWindowStart)
    then GoInt.sub (cursor a) (Z.quot choicesWindowSize 2) else choicesWindowStart in
  let choicesWindowEnd :=
    if decide (GoInt.add (cursor a) (Z.quot choicesWindowSize 2) < choicesWindowEnd)
    then GoInt.add (cursor a) (Z.quot choicesWindowSize 2) else choicesWindowEnd in
  (choicesWindowStart, choicesWindowEnd).

(** The inner loop of [View]: the mark of a choice, by the first track of
    the queue with that base name. *)
Fixpoint View_checked (q : list track) (j current : Z) (choice : string) : string :=
  match q with
  | t :: r =>
    if decide (filepath_Base (path t) <> choice) then View_checked r (j + 1) current choice
    else if decide (j = current) then "*"%string else ">"%string
  | [] => " "%string
  end.

Definition View_row (a : appState) (i : Z) : option string :=
  let cursor_mark := if decide (cursor a = i) then ">"%string else " "%string in
  choice ← index (choices a) i;
  let checked :=
    View_checked (getTracks (app_tracksQueue a)) 0
                 (getCurrentTrackIndex (app_tracksQueue a)) choice in
  Some (cursor_mark +:+ " [" +:+ checked +:+ "] " +:+ choice +:+ nl)%string.

Definition View_rows (a : appState) : option (list string) :=
  let '(first, last) := View_window a in
  mapM (View_row a) (seqZ first (last - first)).

Definition View (a : appState) : option string :=
  if showHelp a then Some help_text
  else
    let s := ("volume: " +:+ pretty (getVolumePercents (app_tracksQueue a)))%string in
    '(currentTrack, ok) ← getCurrentTrack (app_tracksQueue a);
    let s :=
      if ok : bool then
        (s +:+ ", playing: " +:+ filepath_Base (path currentTrack)
           +:+ nl +:+ " " +:+ nl)%string
      else (s +:+ nl +:+ " " +:+ nl)%string in
    rows ← View_rows a;
    Some (fold_left String.append rows s
            +:+ nl +:+ "Press q to quit, ? to toggle help" +:+ nl)%string.

End Controller.

(** ** What the controller does to the queue *)

Section ControllerSteps.

Context {F : Float64}.

(** The path and the stream of every track, in queue order. *)
Definition track_ids (q : list track) : list (string * option handle) :=
  (fun t => (path t, stream t)) <$> q.

(** Every track of the queue holds a decoder of the store. *)
Definition live_decoders (s : tracksQueue) : Prop :=
  forall t, t ∈ queue s -> exists h, stream t = Some h /\ is_Some (decoders s !! h).

(** The calls [Update] makes on the queue besides loading; the volume keys
    step by 10. *)
Definition ui_call (o : op) : Prop :=
  match o with
  | OpAdd _ | OpRestartTrack _ | OpPlay => False
  | OpChangeVolume p => p = 10 \/ p = -10
  | _ => True
  end.

(** The queue before and after one [Update]: untouched, one call made, a
    file loaded, queued and played, or the resources released. *)
Inductive queue_step (env : ui_env) : tracksQueue -> tracksQueue -> Prop :=
| qs_same s : queue_step env s s
| qs_call o s s' : ui_call o -> exec o s = Some s' -> queue_step env s s'
| qs_load p t s s1 :
    hasTrack s p = false ->
    loadTrack (ui_os env) p = (t, None) ->
    addTrack (register_decoder env t s) t = Some s1 ->
    queue_step env s (play s1)
| qs_release s c :
    clear s = Some c ->
    queue_step env s
      (mkQueue (queue s) (ctrl c) (volume s) (currentTrack s)
               (speakerInitialized s) (volumeChange s) (decoders c) (speaker c)).

(** The cursor and the listing before and after one [Update]: the listing
    is kept and the cursor stays or moves by one row within the tests of the
    source, or the listing is read again, for the old directory with the
    cursor kept or for a new one with the cursor on the first row. *)
Definition browse_step (env : ui_env) (a a' : appState) : Prop :=
  (currentDir a' = currentDir a /\ choices a' = choices a /\
   (cursor a' = cursor a \/
    (cursor a > 0 /\ cursor a' = GoInt.sub (cursor a) 1) \/
    (cursor a < GoInt.sub (Z.of_nat (length (choices a))) 1 /\
     cursor a' = GoInt.add (cursor a) 1) \/
    (GoInt.add (cursor a) 1 < Z.of_nat (length (choices a)) /\
     cursor a' = GoInt.add (cursor a) 1))) \/
  (os_ReadDir env (currentDir a') = inr (choices a') /\
   (cursor a' = 0 \/ (cursor a' = cursor a /\ currentDir a' = currentDir a))).

(** A directory listing fits a Go slice. *)
Definition env_listings_fit (env : ui_env) : Prop :=
  forall dir files,
    os_ReadDir env dir = inr files -> Z.of_nat (length files) <= GoInt.max_int.

(** [mp3.Decode] returns a stream whenever it returns no error. *)
Definition env_decode_streams (env : ui_env) : Prop :=
  forall f fmt, mp3_Decode (ui_os env) f <> (None, fmt, None).

(** The keys of [Update] that read the file system. *)
Definition file_keys : list string := ["-"; " "; "enter"]%string.

End ControllerSteps.

Module Session.

(** A music directory with two mp3 files and a text file; [mp3.Decode]
    gives the handle 0 for a.mp3 and 1 for any other file. *)
Definition files : os_env :=
  mkEnv (fun p => inr (if decide (p = "/music/a.mp3"%string) then 0%nat else 1%nat))
        (fun _ => inr false)
        (fun f => (Some f, mkFormat 48000 2 2, None)).

Definition env : ui_env :=
  mkUiEnv files
          (fun dir => if decide (dir = "/music"%string)
                      then inr ["a.mp3"; "b.mp3"; "notes.txt"]%string
                      else inr [])
          (fun dir name => (dir +:+ "/" +:+ name)%string)
          (fun _ => "/"%string)
          (fun _ => Examples.fresh).

(** The model [main] starts from, in /music. *)
Definition start : appState :=
  mkApp 0 "/music" ["a.mp3"; "b.mp3"; "notes.txt"]%string newTrackQueue false.

(** The model after the space key on a.mp3. *)
Definition after_space : appState :=
  match Update env start (MsgKey " ") with
  | Some (a, _) => a
  | None => start
  end.

(** The three tracks of [Examples.abc] with the first one current. *)
Definition abc_first : tracksQueue := set_currentTrack 0 Examples.abc.

End Session.

(** * Properties *)

(** ** Go integers *)

Lemma GoInt_wrap_in_range z : GoInt.in_range z -> GoInt.wrap z = z.
Proof.
  unfold GoInt.in_range, GoInt.min_int, GoInt.max_int, GoInt.wrap. intros Hz.
  rewrite Z.mod_small by lia. lia.
Qed.

Lemma GoInt_wrap_range z : GoInt.in_range (GoInt.wrap z).
Proof.
  unfold GoInt.in_range, GoInt.min_int, GoInt.max_int, GoInt.wrap.
  pose proof (Z.mod_pos_bound (z + 2 ^ 63) (2 ^ 64)). lia.
Qed.

Lemma GoInt_add_exact a b : GoInt.in_range (a + b) -> GoInt.add a b = a + b.
Proof. apply GoInt_wrap_in_range. Qed.

Lemma GoInt_sub_exact a b : GoInt.in_range (a - b) -> GoInt.sub a b = a - b.
Proof. apply GoInt_wrap_in_range. Qed.


Lemma GoInt_max_int_pos : 0 < GoInt.max_int.
Proof. reflexivity. Qed.

Lemma GoInt_min_int_neg : GoInt.min_int < 0.
Proof. reflexivity. Qed.

Section Properties.

Context {F : Float64}.

Implicit Types (s : tracksQueue) (t : track) (q : list track).

(** ** Indexing *)

Lemma index_Some {A} (l : list A) (i : Z) x :
  index l i = Some x <-> 0 <= i < Z.of_nat (length l) /\ l !! Z.to_nat i = Some x.
Proof.
  unfold index. destruct (decide (0 <= i < Z.of_nat (length l))) as [Hi|Hi].
  - split; [by intros ?|by intros [_ ?]].
  - split; [done|]. by intros [? _].
Qed.

Lemma index_in_range {A} (l : list A) (i : Z) :
  0 <= i < Z.of_nat (length l) -> exists x, index l i = Some x.
Proof.
  intros Hi. destruct (lookup_lt_is_Some_2 l (Z.to_nat i)) as [x Hx]; [lia|].
  exists x. by apply index_Some.
Qed.

Lemma length_store {A} (l : list A) i x : length (store l i x) = length l.
Proof. apply length_insert. Qed.

(** ** The composite stream *)

Lemma rebuild_loop q acc :
  fold_left rebuild_step q acc =
  acc ++ map track_streamer (filter (fun t => ended t = false) q).
Proof.
  revert acc. induction q as [|t q IH]; intros acc; simpl.
  - by rewrite app_nil_r.
  - rewrite IH. unfold rebuild_step. rewrite filter_cons.
    destruct (decide (ended t = false)) as [E|E].
    + rewrite E. simpl. by rewrite <- app_assoc.
    + destruct (ended t); [done|congruence].
Qed.

Lemma play_order_tracks q :
  play_order (Seq (map track_streamer q)) =
  flat_map (fun t => [Resampled (resampled t); Callback "f"%string]) q.
Proof.
  simpl. induction q as [|t q IH]; simpl; [done|]. by rewrite IH.
Qed.

Lemma rebuild_play_order q :
  play_order (Seq (fold_left rebuild_step q [])) =
  flat_map (fun t => [Resampled (resampled t); Callback "f"%string])
           (filter (fun t => ended t = false) q).
Proof. rewrite rebuild_loop. apply play_order_tracks. Qed.

(** C1. The stream [rebuildStreamer] installs plays exactly the tracks of
    the queue whose [ended] flag is false, in queue order, each resampled
    view followed by one end-of-track callback; ended tracks contribute
    nothing, and the queue itself is not touched. *)
Theorem rebuildStreamer_composite s :
  exists composite,
    ctrl_Streamer (ctrl (rebuildStreamer s)) = Some composite /\
    play_order composite =
      flat_map (fun t => [Resampled (resampled t); Callback "f"%string])
               (filter (fun t => ended t = false) (queue s)) /\
    queue (rebuildStreamer s) = queue s.
Proof.
  eexists. split; [reflexivity|]. split; [|reflexivity].
  apply rebuild_play_order.
Qed.

(** After any sequence of [addTrack] the installed stream is the one of the
    whole queue. *)
Lemma addTrack_composite s t s' :
  addTrack s t = Some s' ->
  queue s' = queue s ++ [t] /\
  exists composite,
    ctrl_Streamer (ctrl s') = Some composite /\
    play_order composite =
      flat_map (fun t => [Resampled (resampled t); Callback "f"%string])
               (filter (fun t => ended t = false) (queue s')).
Proof.
  unfold addTrack, go_append. case_decide; [|done]. simpl. intros [= <-].
  split; [done|]. eexists. split; [reflexivity|]. apply rebuild_play_order.
Qed.

(** ** Frames *)

Lemma queue_play s : queue (play s) = queue s.
Proof. unfold play. by case_decide. Qed.

Lemma currentTrack_play s : currentTrack (play s) = currentTrack s.
Proof. unfold play. by case_decide. Qed.

Lemma decoders_play s : decoders (play s) = decoders s.
Proof. unfold play. by case_decide. Qed.

Lemma queue_changeVolume s p : queue (changeVolume s p) = queue s.
Proof. unfold changeVolume. by case_decide. Qed.

Lemma currentTrack_changeVolume s p :
  currentTrack (changeVolume s p) = currentTrack s.
Proof. unfold changeVolume. by case_decide. Qed.

Lemma decoders_changeVolume s p : decoders (changeVolume s p) = decoders s.
Proof. unfold changeVolume. by case_decide. Qed.

(** ** next *)

Lemma well_formed_index s :
  well_formed s -> queue s <> [] ->
  exists t, index (queue s) (currentTrack s) = Some t.
Proof.
  intros (H0 & _ & Hlt & _) Hne. apply index_in_range.
  specialize (Hlt Hne). unfold len in Hlt. lia.
Qed.

Lemma len_zero s : len s = 0 <-> queue s = [].
Proof.
  unfold len. destruct (queue s); simpl; [done|]. split; [lia|done].
Qed.

Lemma next_in_range s :
  well_formed s -> GoInt.add (currentTrack s) 1 = currentTrack s + 1.
Proof.
  intros (H0 & He & Hlt & Hmax). apply GoInt_add_exact.
  pose proof GoInt_min_int_neg. pose proof GoInt_max_int_pos.
  unfold GoInt.in_range. destruct (decide (queue s = [])) as [E|E].
  - rewrite (He E). lia.
  - specialize (Hlt E). lia.
Qed.

(** At the last track: the flag is set, nothing else happens. *)
Lemma nextTrack_at_last s :
  well_formed s -> queue s <> [] -> currentTrack s = len s - 1 ->
  exists t, index (queue s) (currentTrack s) = Some t /\
    nextTrack s =
      Some (set_queue (store (queue s) (currentTrack s) (set_ended true t)) s).
Proof.
  intros Hwf Hne Hlast. pose proof (next_in_range s Hwf) as Hadd.
  destruct (well_formed_index s Hwf Hne) as [t Ht].
  exists t. split; [done|]. unfold nextTrack.
  rewrite decide_True by (by rewrite len_zero). rewrite Ht. simpl.
  rewrite decide_True; [done|].
  unfold len in *. simpl. rewrite length_store, Hadd. lia.
Qed.

(** Before the last track: the flag is set, the index moves on, the stream
    is rebuilt and played. *)
Lemma nextTrack_before_last s :
  well_formed s -> queue s <> [] -> currentTrack s <> len s - 1 ->
  exists t, index (queue s) (currentTrack s) = Some t /\
    nextTrack s =
      Some (play (call_speaker [Clear] (rebuildStreamer
              (set_currentTrack (currentTrack s + 1)
                 (set_queue (store (queue s) (currentTrack s) (set_ended true t)) s))))).
Proof.
  intros Hwf Hne Hnot. pose proof (next_in_range s Hwf) as Hadd.
  destruct (well_formed_index s Hwf Hne) as [t Ht].
  destruct Hwf as (H0 & He & Hlt & Hmax). specialize (Hlt Hne).
  exists t. split; [done|]. unfold nextTrack.
  rewrite decide_True by (by rewrite len_zero). rewrite Ht. simpl.
  rewrite decide_False.
  2:{ unfold len in *. simpl. rewrite length_store, Hadd. lia. }
  by rewrite Hadd.
Qed.

Lemma nextTrack_empty s :
  well_formed s -> queue s = [] -> nextTrack s = Some s.
Proof.
  intros Hwf Hempty. pose proof (next_in_range s Hwf) as Hadd.
  destruct Hwf as (H0 & He & Hlt & Hmax). unfold nextTrack.
  rewrite decide_False by (rewrite len_zero; naive_solver). simpl.
  rewrite decide_True; [done|].
  rewrite Hadd, (He Hempty). unfold len. rewrite Hempty. simpl. lia.
Qed.


(** ** Volume *)


(** ** remove *)

(** What the loop of [removeTrack] returns: -1 when no track has the name,
    otherwise the first index [k] that has it, with [prev] its predecessor
    ([prev] is left as it was when [k] is the first turn). *)
Lemma removeTrack_loop_cases q name (i prev : Z) :
  (fst (removeTrack_loop q name i prev) = -1 /\ forall t, t ∈ q -> ~ named name t) \/
  (exists (k : nat) t,
      q !! k = Some t /\ named name t /\
      (forall (j : nat) y, q !! j = Some y -> (j < k)%nat -> ~ named name y) /\
      removeTrack_loop q name i prev =
        (i + Z.of_nat k, if decide (k = 0%nat) then prev else i + Z.of_nat k - 1)).
Proof.
  revert i prev. induction q as [|t q IH]; intros i prev; simpl.
  - left. split; [done|]. intros t Ht. by apply elem_of_nil in Ht.
  - destruct (decide (filepath_Base (path t) = name)) as [E|E].
    + right. exists 0%nat, t. repeat split; [done| |].
      * intros j y _ Hj. lia.
      * simpl. f_equal. lia.
    + destruct (IH (i + 1) i) as [[H1 Hno]|(k & x & Hk & Hx & Hfirst & Hr)].
      * left. split; [done|]. intros y Hy.
        apply elem_of_cons in Hy as [->|Hy]; [done|by apply Hno].
      * right. exists (S k), x. repeat split; [done|done| |].
        -- intros [|j] y Hy Hj; simpl in Hy; [by injection Hy as <-|].
           apply (Hfirst j); [done|lia].
        -- rewrite Hr. destruct (decide (S k = 0%nat)) as [?|_]; [done|].
           destruct (decide (k = 0%nat)); f_equal; lia.
Qed.

Lemma first_named_unique q name (k k' : nat) t t' :
  q !! k = Some t -> named name t ->
  (forall (j : nat) y, q !! j = Some y -> (j < k)%nat -> ~ named name y) ->
  q !! k' = Some t' -> named name t' ->
  (forall (j : nat) y, q !! j = Some y -> (j < k')%nat -> ~ named name y) ->
  k = k'.
Proof.
  intros Hk Ht Hf Hk' Ht' Hf'.
  destruct (Nat.lt_trichotomy k k') as [Hlt|[->|Hlt]]; [|done|].
  - by destruct (Hf' k t Hk Hlt).
  - by destruct (Hf k' t' Hk' Hlt).
Qed.

Lemma slices_Delete_one {A} (l : list A) (k : nat) :
  (k < length l)%nat -> Z.of_nat (length l) <= GoInt.max_int ->
  slices_Delete l (Z.of_nat k) (GoInt.add (Z.of_nat k) 1) = Some (delete k l).
Proof.
  intros Hk Hmax. pose proof GoInt_min_int_neg.
  rewrite GoInt_add_exact by (unfold GoInt.in_range; lia).
  unfold slices_Delete. rewrite decide_True by lia.
  rewrite Nat2Z.id. replace (Z.to_nat (Z.of_nat k + 1)) with (S k) by lia.
  by rewrite delete_take_drop.
Qed.

Lemma removeTrack_found s name (k : nat) t :
  len s <= GoInt.max_int ->
  queue s !! k = Some t -> named name t ->
  (forall (j : nat) y, queue s !! j = Some y -> (j < k)%nat -> ~ named name y) ->
  removeTrack s name =
    Some (set_queue (delete k (queue s))
            (set_currentTrack (if decide (k = 0%nat) then 0 else Z.of_nat k - 1) s)).
Proof.
  intros Hmax Hk Ht Hfirst. unfold removeTrack.
  destruct (removeTrack_loop_cases (queue s) name 0 0)
    as [[_ Hno]|(k' & t' & Hk' & Ht' & Hfirst' & ->)].
  - destruct (Hno t); [by eapply list_elem_of_lookup_2|done].
  - assert (k' = k) as -> by eauto using first_named_unique.
    rewrite decide_False by lia. simpl.
    replace (0 + Z.of_nat k) with (Z.of_nat k) by lia.
    rewrite slices_Delete_one; [|by eapply lookup_lt_Some|done]. simpl.
    by destruct (decide (k = 0%nat)).
Qed.

Lemma removeTrack_absent s name :
  (forall t, t ∈ queue s -> ~ named name t) -> removeTrack s name = Some s.
Proof.
  intros Hno. unfold removeTrack.
  destruct (removeTrack_loop_cases (queue s) name 0 0)
    as [[H1 _]|(k & t & Hk & Ht & _)].
  - destruct (removeTrack_loop (queue s) name 0 0) as [ti pv]. simpl in H1.
    by rewrite decide_True.
  - destruct (Hno t); [by eapply list_elem_of_lookup_2|done].
Qed.


(** ** The index of the current track *)

Lemma well_formed_same s s' :
  length (queue s') = length (queue s) -> currentTrack s' = currentTrack s ->
  well_formed s -> well_formed s'.
Proof.
  unfold well_formed, len. intros Hl -> (H0 & He & Hlt & Hmax). rewrite Hl.
  repeat split; [done| | |done].
  - intros E. apply He. apply nil_length_inv. by rewrite <- Hl, E.
  - intros E. apply Hlt. intros E'. apply E. apply nil_length_inv. by rewrite Hl, E'.
Qed.

(** [restartTrack] keeps the length of the queue and the current index. *)
Lemma restartTrack_frame s i s' :
  restartTrack s i = Some s' ->
  length (queue s') = length (queue s) /\ currentTrack s' = currentTrack s.
Proof.
  unfold restartTrack. destruct (index (queue s) i) as [t|]; [simpl|done].
  destruct (stream t) as [h|]; [simpl|done].
  destruct (decoders s !! h) as [d|]; [simpl|done].
  destruct (bool_decide (position d = length_ d)); intros [= <-].
  - rewrite queue_play, currentTrack_play. simpl. by rewrite !length_store.
  - simpl. by rewrite length_store.
Qed.

Lemma restartQueue_loop_frame idx s s' :
  restartQueue_loop idx s = Some s' ->
  length (queue s') = length (queue s) /\ currentTrack s' = currentTrack s.
Proof.
  revert s. induction idx as [|i idx IH]; intros s; simpl.
  - by intros [= <-].
  - destruct (restartTrack s (Z.of_nat i)) as [s1|] eqn:E; [simpl|done].
    intros Hl. apply IH in Hl as [-> ->]. by apply restartTrack_frame in E.
Qed.

Lemma prev_in_range s :
  well_formed s -> GoInt.sub (currentTrack s) 1 = currentTrack s - 1.
Proof.
  intros (H0 & He & Hlt & Hmax). apply GoInt_sub_exact.
  pose proof GoInt_min_int_neg. pose proof GoInt_max_int_pos.
  unfold GoInt.in_range. destruct (decide (queue s = [])) as [E|E].
  - rewrite (He E). lia.
  - specialize (Hlt E). lia.
Qed.

(** [nextTrack] never panics on a well-formed queue, and moves the current
    index by zero or by one, inside the queue. *)
Lemma nextTrack_step s :
  well_formed s ->
  exists s', nextTrack s = Some s' /\
    length (queue s') = length (queue s) /\
    (currentTrack s' = currentTrack s \/
     currentTrack s' = currentTrack s + 1 /\ currentTrack s + 1 < len s).
Proof.
  intros Hwf. destruct (decide (queue s = [])) as [E|E].
  - exists s. rewrite (nextTrack_empty s Hwf E). auto.
  - destruct (decide (currentTrack s = len s - 1)) as [Hc|Hc].
    + destruct (nextTrack_at_last s Hwf E Hc) as (t & _ & ->).
      eexists. split; [done|]. simpl. rewrite length_store. auto.
    + destruct (nextTrack_before_last s Hwf E Hc) as (t & _ & ->).
      eexists. split; [done|]. rewrite queue_play, currentTrack_play. simpl.
      rewrite length_store. split; [done|]. right. split; [done|].
      destruct Hwf as (_ & _ & Hlt & _). specialize (Hlt E). lia.
Qed.

(** [prevTrack] never panics on a well-formed queue, and moves the current
    index by zero or by one, inside the queue. *)
Lemma prevTrack_step s :
  well_formed s ->
  exists s', prevTrack s = Some s' /\
    length (queue s') = length (queue s) /\
    (currentTrack s' = currentTrack s \/
     currentTrack s' = currentTrack s - 1 /\ 0 <= currentTrack s - 1).
Proof.
  intros Hwf. pose proof (prev_in_range s Hwf) as Hsub.
  destruct Hwf as (H0 & He & Hlt & Hmax).
  unfold prevTrack. rewrite Hsub.
  destruct (decide (currentTrack s - 1 < 0)) as [Hc|Hc]; [by eauto|].
  simpl. assert (queue s <> []) as Hne by (intros E; specialize (He E); lia).
  specialize (Hlt Hne). unfold len in Hlt.
  destruct (index_in_range (queue s) (currentTrack s - 1)) as [t Ht]; [lia|].
  rewrite Ht. simpl. eexists. split; [done|].
  rewrite queue_play, currentTrack_play. simpl.
  rewrite length_store. split; [done|]. right. lia.
Qed.

Lemma well_formed_exec o s s' :
  well_formed s -> exec o s = Some s' -> well_formed s'.
Proof.
  intros Hwf. pose proof Hwf as (H0 & He & Hlt & Hmax).
  destruct o as [t|name| | | |i| | | | | |p]; simpl.
  - (* add *)
    unfold addTrack, go_append.
    destruct (decide (Z.of_nat (length (queue s)) < GoInt.max_int)) as [Hl|]; [simpl|done].
    intros [= <-]. unfold well_formed, len. simpl. rewrite length_app. simpl.
    repeat split; [done| | |lia].
    + intros E. by destruct (queue s).
    + intros _. destruct (decide (queue s = [])) as [E|E].
      * rewrite (He E). lia.
      * specialize (Hlt E). unfold len in Hlt. lia.
  - (* remove *)
    destruct (removeTrack_loop_cases (queue s) name 0 0)
      as [[_ Hno]|(k & t & Hk & Ht & Hfirst & _)].
    + rewrite removeTrack_absent by done. by intros [= <-].
    + rewrite (removeTrack_found s name k t) by done. intros [= <-].
      pose proof (lookup_lt_Some _ _ _ Hk) as Hkl.
      unfold well_formed, len in *. simpl. rewrite length_delete by eauto.
      repeat split.
      * destruct (decide (k = 0%nat)); lia.
      * intros E. apply (f_equal length) in E. rewrite length_delete in E by eauto.
        simpl in E. destruct (decide (k = 0%nat)); lia.
      * intros E. assert (length (delete k (queue s)) <> 0%nat) as En
          by (by destruct (delete k (queue s))).
        rewrite length_delete in En by eauto.
        destruct (decide (k = 0%nat)); lia.
      * lia.
  - (* next *)
    destruct (nextTrack_step s Hwf) as (s1 & -> & Hl & Hc). intros [= <-].
    unfold well_formed, len in *. rewrite Hl.
    assert (queue s1 = [] <-> queue s = []) as Hiff.
    { split; intros E; apply nil_length_inv; [by rewrite <- Hl, E|by rewrite Hl, E]. }
    rewrite Hiff. destruct Hc as [->|[-> Hc]]; [done|].
    repeat split; [lia| |done..].
    intros E. rewrite E in Hc. simpl in Hc. lia.
  - (* previous *)
    destruct (prevTrack_step s Hwf) as (s1 & -> & Hl & Hc). intros [= <-].
    unfold well_formed, len in *. rewrite Hl.
    assert (queue s1 = [] <-> queue s = []) as Hiff.
    { split; intros E; apply nil_length_inv; [by rewrite <- Hl, E|by rewrite Hl, E]. }
    rewrite Hiff. destruct Hc as [->|[-> Hc]]; [done|].
    repeat split; [lia| | |done].
    + intros E. specialize (He E). lia.
    + intros E. specialize (Hlt E). lia.
  - (* restart *)
    unfold restartCurrentTrack. case_decide; [by intros [= <-]|].
    intros Hr. apply restartTrack_frame in Hr as [Hl Hc].
    by apply (well_formed_same s).
  - (* restart at an index *)
    intros Hr. apply restartTrack_frame in Hr as [Hl Hc].
    by apply (well_formed_same s).
  - (* restart all *)
    unfold restartQueue.
    destruct (restartQueue_loop (seq 0 (length (queue s))) s) as [s1|] eqn:E; [simpl|done].
    intros [= <-]. apply restartQueue_loop_frame in E as [Hl _].
    unfold well_formed, len in *. simpl. rewrite Hl.
    repeat split; [done..| |done].
    intros Hne. destruct (queue s1); [done|]. simpl in Hl. lia.
  - (* clear *)
    unfold clear. destruct (clear_loop (queue s) (decoders s)); [simpl|done].
    intros [= <-]. unfold well_formed, len. simpl.
    pose proof GoInt_max_int_pos. repeat split; [done..|lia].
  - intros [= <-].
    apply (well_formed_same s); [by rewrite queue_play|apply currentTrack_play|done].
  - intros [= <-]. by apply (well_formed_same s).
  - intros [= <-]. by apply (well_formed_same s).
  - intros [= <-].
    apply (well_formed_same s);
      [by rewrite queue_changeVolume|apply currentTrack_changeVolume|done].
Qed.

Lemma well_formed_new : well_formed newTrackQueue.
Proof.
  unfold well_formed, len. simpl. pose proof GoInt_max_int_pos.
  repeat split; [done..|lia].
Qed.

Lemma reachable_well_formed s : reachable s -> well_formed s.
Proof.
  induction 1 as [|s o s' _ IH Hex|s h d _ IH _|s h d n _ IH _ _].
  - apply well_formed_new.
  - by eapply well_formed_exec.
  - by apply (well_formed_same s).
  - by apply (well_formed_same s).
Qed.

(** C3. In every state reachable from the empty queue, [currentTrack] is an
    index of the queue whenever the queue is not empty, so [getCurrentTrack]
    returns without indexing out of range; [nextTrack] and [prevTrack] return
    too, each moves [currentTrack] by at most one, and restarting the current
    track does not move it. *)
Theorem currentTrack_in_range s :
  reachable s ->
  (queue s <> [] -> 0 <= currentTrack s < len s) /\
  (exists t found, getCurrentTrack s = Some (t, found) /\
     (found = false <-> queue s = [])) /\
  (exists s', nextTrack s = Some s' /\
     Z.abs (currentTrack s' - currentTrack s) <= 1) /\
  (exists s', prevTrack s = Some s' /\
     Z.abs (currentTrack s' - currentTrack s) <= 1) /\
  (forall s', restartCurrentTrack s = Some s' -> currentTrack s' = currentTrack s).
Proof.
  intros Hr. pose proof (reachable_well_formed s Hr) as Hwf.
  pose proof Hwf as (H0 & He & Hlt & Hmax).
  split; [|split; [|split; [|split]]].
  - intros Hne. split; [done|by apply Hlt].
  - unfold getCurrentTrack. destruct (decide (len s = 0)) as [E|E].
    + exists track_zero, false. by rewrite <- len_zero.
    + destruct (well_formed_index s Hwf) as [t Ht]; [by rewrite <- len_zero|].
      exists t, true. rewrite Ht. split; [done|]. by rewrite <- len_zero.
  - destruct (nextTrack_step s Hwf) as (s' & Hn & _ & Hc).
    exists s'. split; [done|]. lia.
  - destruct (prevTrack_step s Hwf) as (s' & Hn & _ & Hc).
    exists s'. split; [done|]. lia.
  - intros s'. unfold restartCurrentTrack. case_decide; [by intros [= <-]|].
    intros Hs. by apply restartTrack_frame in Hs as [_ ?].
Qed.

(** ** restart *)


(** C5. On a track whose decoder position differs from its length,
    [restartTrack] clears the track's [ended] flag and asks the decoder to
    seek to offset 0, which on an open decoder puts its position at 0; the
    resampled view, the installed stream, the current index, the gain and
    the speaker are untouched: no rebuild, no playback started. *)
Theorem restartTrack_not_at_end s i t h d :
  index (queue s) i = Some t -> stream t = Some h -> decoders s !! h = Some d ->
  position d <> length_ d ->
  restartTrack s i =
    Some (mkQueue (store (queue s) i (set_ended false t)) (ctrl s) (volume s)
            (currentTrack s) (speakerInitialized s) (volumeChange s)
            (<[h := decoder_Seek d 0]> (decoders s)) (speaker s)) /\
  (closed d = false -> 0 <= length_ d -> position (decoder_Seek d 0) = 0).
Proof.
  intros Ht Hh Hd Hne. split.
  - unfold restartTrack. rewrite Ht. simpl. rewrite Hh. simpl. rewrite Hd. simpl.
    by rewrite bool_decide_eq_false_2.
  - intros Hc Hl. unfold decoder_Seek. rewrite Hc. by rewrite decide_True by lia.
Qed.

(** On a track whose decoder has reached its length, [restartTrack] clears
    the flag, seeks to 0, builds a new resampler from [basicSampleRate] to
    the sample rate of the file, rebuilds the stream and plays. *)
Lemma restartTrack_at_end s i t h d :
  index (queue s) i = Some t -> stream t = Some h -> decoders s !! h = Some d ->
  position d = length_ d ->
  exists s',
    restartTrack s i = Some s' /\
    index (queue s') i =
      Some (mkTrack (path t) (stream t)
              (Some (beep_Resample 4 basicSampleRate (SampleRate (format t)) (stream t)))
              (format t) false) /\
    decoders s' = <[h := decoder_Seek d 0]> (decoders s).
Proof.
  intros Ht Hh Hd He. unfold restartTrack. rewrite Ht. simpl. rewrite Hh. simpl.
  rewrite Hd. simpl. rewrite bool_decide_eq_true_2 by done.
  eexists. split; [done|]. rewrite queue_play, decoders_play. simpl.
  split; [|done]. apply index_Some in Ht as [Hi _].
  apply index_Some. rewrite !length_store. split; [done|].
  unfold store. rewrite list_insert_insert_eq.
  rewrite list_lookup_insert_eq by lia.
  unfold set_resampled, set_ended. simpl. by rewrite ?Hh.
Qed.

(** The resampler [loadTrack] builds goes from the sample rate of the file
    to [basicSampleRate]. *)
Lemma loadTrack_resampled env p t :
  loadTrack env p = (t, None) ->
  resampled t = Some (beep_Resample 4 (SampleRate (format t)) basicSampleRate (stream t)).
Proof.
  unfold loadTrack. destruct (negb _); [done|].
  destruct (os_Open env p) as [e|f]; [done|].
  destruct (file_Stat env f) as [e|[|]]; [done..|].
  destruct (mp3_Decode env f) as [[st fmt] [e|]]; [done|].
  by intros [= <-].
Qed.

(** The two resamplers are the same conversion only for a 44100 Hz file. *)
Lemma resamplers_agree_iff (rate : Z) (st : option handle) :
  beep_Resample 4 basicSampleRate rate st = beep_Resample 4 rate basicSampleRate st
  <-> rate = basicSampleRate.
Proof.
  unfold beep_Resample. split; [by intros [= ->]|by intros ->].
Qed.

(** ** load *)


(** ** The displayed volume *)

(** After an accepted [changeVolume], [getVolumePercents] is
    [int(Round(100 * Pow(Base, Log10(100 + float64(d)) - 2)))] for the new
    deviation [d]. Whether that integer is [100 + d] is a fact about the
    rounding of [math.Log10] and [math.Pow], outside this development. *)
Lemma getVolumePercents_after_change s (percents : Z) :
  let d := GoInt.add (volumeChange s) percents in
  ~ d < -100 ->
  getVolumePercents (changeVolume s percents) =
    int_of_float64
      (math_Round
         (f_mul (float64_of_int 100)
            (math_Pow (vol_Base (volume s))
               (f_sub (math_Log10 (f_add (float64_of_int 100) (float64_of_int d)))
                      (float64_of_int 2))))).
Proof.
  intros d Hd. unfold changeVolume. fold d. by rewrite decide_False.
Qed.

(** ** Ended tracks and fully played decoders *)






(** The sink consuming samples keeps the property too: a decoder at its
    length stays there. *)
Lemma ended_at_end_pull s h d n :
  decoders s !! h = Some d -> 0 <= n ->
  ended_at_end s ->
  ended_at_end (set_decoders (<[h := decoder_pull d n]> (decoders s)) s).
Proof.
  intros Hd Hn He i x. simpl. intros Hx Hended.
  destruct (He i x Hx Hended) as (h' & d' & Hh' & Hd' & Hpos).
  destruct (decide (h = h')) as [<-|Hne].
  - exists h, (decoder_pull d n). rewrite lookup_insert_eq.
    repeat split; [done|]. rewrite Hd in Hd'. injection Hd' as <-.
    unfold decoder_pull. simpl. lia.
  - exists h', d'. by rewrite lookup_insert_ne.
Qed.

End Properties.

(** ** The properties on runs of the example queue *)

Module Scenarios.
Import Examples.

Lemma reachable_enqueued : reachable enqueued.
Proof.
  apply (reach_op loaded (OpAdd a_mp3)); [|reflexivity].
  apply (reach_decode newTrackQueue 0%nat fresh); [apply reach_new|reflexivity].
Qed.

(** Three tracks A, B, C with A current; [nextTrack] twice: C is current, A
    and B are ended, and the installed stream plays C only. *)
Example next_twice :
  exists s',
    (s1 ← nextTrack (set_currentTrack 0 abc); nextTrack s1) = Some s' /\
    currentTrack s' = 2 /\
    ended <$> queue s' = [true; true; false] /\
    play_order <$> ctrl_Streamer (ctrl s') =
      Some [Resampled (resampled c_mp3); Callback "f"%string].
Proof. eexists. split; [vm_compute; reflexivity|]. by repeat split. Qed.

(** From the baseline, a change of -110 is rejected; a change of -100 is
    accepted and mutes. *)
Example volume_floor :
  changeVolume newTrackQueue (-110) = newTrackQueue /\
  volumeChange (changeVolume newTrackQueue (-100)) = -100 /\
  vol_Silent (volume (changeVolume newTrackQueue (-100))) = true /\
  speaker (changeVolume newTrackQueue (-100)) = [Clear; Play].
Proof. by repeat split. Qed.

(** Removing the track that plays leaves the installed stream as it was. *)
Example remove_keeps_stream :
  exists s', removeTrack enqueued "a.mp3" = Some s' /\
    queue s' = [] /\ ctrl s' = ctrl enqueued.
Proof. eexists. split; [reflexivity|]. by split. Qed.


Lemma currentTrack_in_range_witness :
  reachable enqueued /\
  0 <= currentTrack enqueued < len enqueued.
Proof.
  split; [exact reachable_enqueued|].
  destruct (currentTrack_in_range enqueued reachable_enqueued) as (Hin & _).
  by apply Hin.
Defined.


(** C5, as stated, fails: the decoder of a half played track is at 5 of 10
    before [restartTrack] and at 0 after it. *)
Lemma restartTrack_seeks :
  index (queue mid_song) 0 = Some (set_ended true a_mp3) /\
  decoders mid_song !! 0%nat = Some half_played /\
  position half_played <> length_ half_played /\
  restartTrack mid_song 0 <> Some (set_queue (store (queue mid_song) 0 a_mp3) mid_song) /\
  exists s', restartTrack mid_song 0 = Some s' /\ decoders s' !! 0%nat = Some fresh.
Proof.
  split; [reflexivity|]. split; [reflexivity|]. split; [done|]. split.
  - intros H. apply (f_equal (fun o => s ← o; decoders s !! 0%nat)) in H.
    vm_compute in H. discriminate.
  - eexists. split; reflexivity.
Qed.

Lemma restartTrack_not_at_end_witness :
  index (queue mid_song) 0 = Some (set_ended true a_mp3) /\
  stream (set_ended true a_mp3) = Some 0%nat /\
  decoders mid_song !! 0%nat = Some half_played /\
  position half_played <> length_ half_played /\
  restartTrack mid_song 0 =
    Some (set_decoders {[ 0%nat := fresh ]} (set_queue [a_mp3] mid_song)).
Proof.
  split; [reflexivity|]. split; [reflexivity|]. split; [reflexivity|].
  assert (position half_played <> length_ half_played) as Hne by done.
  split; [exact Hne|].
  destruct (restartTrack_not_at_end mid_song 0 (set_ended true a_mp3) 0%nat half_played)
    as [Hr _]; [reflexivity..|exact Hne|].
  rewrite Hr. reflexivity.
Defined.

(** C6. Restarting a fully played 48 kHz track builds the resampler from
    44100 to 48000, where [loadTrack] built it from 48000 to 44100: the two
    sample rates are passed in opposite orders. *)
Theorem restartTrack_resampler_mismatch :
  loadTrack good_env "/music/a.mp3" = (a_mp3, None) /\
  resampled a_mp3 = Some (beep_Resample 4 48000 44100 (Some 0%nat)) /\
  exists s' t',
    restartTrack finished 0 = Some s' /\
    index (queue s') 0 = Some t' /\
    resampled t' = Some (beep_Resample 4 44100 48000 (Some 0%nat)) /\
    resampled t' <> resampled a_mp3.
Proof.
  split; [reflexivity|]. split; [reflexivity|]. eexists _, _.
  split; [reflexivity|]. split; [reflexivity|]. split; [reflexivity|]. discriminate.
Qed.




End Scenarios.

(** * Further properties of the queue *)

Section QueueProperties.

Context {F : Float64}.

Implicit Types (s : tracksQueue) (t : track) (q : list track).

(** ** What [play] and [rebuildStreamer] leave alone *)

Lemma ctrl_play s : ctrl (play s) = ctrl s.
Proof. unfold play. by case_decide. Qed.

Lemma volume_play s : volume (play s) = volume s.
Proof. unfold play. by case_decide. Qed.

Lemma volumeChange_play s : volumeChange (play s) = volumeChange s.
Proof. unfold play. by case_decide. Qed.

Lemma speaker_play s :
  speaker (play s) = speaker s ++ (if decide (len s <> 0) then [Clear; Play] else [Clear]).
Proof.
  unfold play. change (len (call_speaker [Clear] s)) with (len s).
  case_decide; simpl; [|done]. by rewrite <- app_assoc.
Qed.

Lemma in_sync_rebuild s : in_sync (rebuildStreamer s).
Proof. unfold in_sync. simpl. f_equal. apply rebuild_play_order. Qed.

Lemma in_sync_same s s' :
  ctrl s' = ctrl s -> queue s' = queue s -> in_sync s -> in_sync s'.
Proof. unfold in_sync. by intros -> ->. Qed.

Lemma in_sync_play s : in_sync s -> in_sync (play s).
Proof. apply in_sync_same; [apply ctrl_play|apply queue_play]. Qed.

(** ** hasTrack *)

Lemma hasTrack_loop_elem q p :
  hasTrack_loop q p = true <-> exists t, t ∈ q /\ path t = p.
Proof.
  induction q as [|x q IH]; simpl.
  - split; [done|]. intros (t & Ht & _). by apply elem_of_nil in Ht.
  - destruct (decide (path x = p)) as [E|E].
    + split; [|done]. intros _. exists x. split; [by left|done].
    + rewrite IH. split.
      * intros (t & Ht & Hp). exists t. split; [by right|done].
      * intros (t & Ht & Hp). apply elem_of_cons in Ht as [->|Ht]; [done|eauto].
Qed.

Lemma hasTrack_paths s p : hasTrack s p = true <-> p ∈ path <$> queue s.
Proof.
  unfold hasTrack. rewrite hasTrack_loop_elem, list_elem_of_fmap. split.
  - intros (t & Ht & <-). by exists t.
  - intros (t & -> & Ht). by exists t.
Qed.

(** X1. [hasTrack] answers true exactly for the paths of the tracks in the
    queue, and false exactly when no track has the path. *)
Theorem hasTrack_iff s (trackPath : string) :
  (hasTrack s trackPath = true <-> exists t, t ∈ queue s /\ path t = trackPath) /\
  (hasTrack s trackPath = false <-> forall t, t ∈ queue s -> path t <> trackPath).
Proof.
  pose proof (hasTrack_loop_elem (queue s) trackPath) as Hiff.
  unfold hasTrack. split; [exact Hiff|]. split.
  - intros Hf t Ht Hp. assert (hasTrack_loop (queue s) trackPath = true) as Htrue
      by (apply Hiff; by exists t).
    congruence.
  - intros Hno. destruct (hasTrack_loop (queue s) trackPath) eqn:E; [|done].
    destruct Hiff as [Hfound _]. destruct (Hfound eq_refl) as (t & Ht & Hp).
    by destruct (Hno t Ht).
Qed.

(** X2. Adding a track whose path [hasTrack] does not find keeps the paths
    of the queue pairwise distinct; afterwards [hasTrack] finds the new path
    and every path it found before. *)
Theorem addTrack_unique_paths s t s' :
  NoDup (path <$> queue s) ->
  hasTrack s (path t) = false ->
  addTrack s t = Some s' ->
  NoDup (path <$> queue s') /\
  hasTrack s' (path t) = true /\
  (forall p, hasTrack s p = true -> hasTrack s' p = true).
Proof.
  intros Hnd Hno. unfold addTrack, go_append. case_decide; [simpl|done].
  intros [= <-]. split; [|split].
  - simpl. rewrite fmap_app. simpl. apply NoDup_app. split; [done|]. split.
    + intros p Hp Hin. apply list_elem_of_singleton in Hin as ->.
      apply hasTrack_paths in Hp. congruence.
    + apply NoDup_singleton.
  - apply hasTrack_paths. simpl. rewrite fmap_app. apply elem_of_app. right.
    simpl. by left.
  - intros p Hp. apply hasTrack_paths in Hp. apply hasTrack_paths. simpl.
    rewrite fmap_app. apply elem_of_app. by left.
Qed.

(** ** previous *)

Lemma prevTrack_at_head s :
  well_formed s -> currentTrack s = 0 -> prevTrack s = Some s.
Proof.
  intros Hwf Hc. unfold prevTrack. rewrite (prev_in_range s Hwf), Hc.
  by rewrite decide_True by lia.
Qed.

Lemma prevTrack_moves s :
  well_formed s -> currentTrack s <> 0 ->
  exists t, index (queue s) (currentTrack s - 1) = Some t /\
    prevTrack s =
      Some (play (call_speaker [Clear] (rebuildStreamer
              (set_queue (store (queue s) (currentTrack s - 1) (set_ended false t))
                 (set_currentTrack (currentTrack s - 1) s))))).
Proof.
  intros Hwf Hc. pose proof (prev_in_range s Hwf) as Hsub.
  destruct Hwf as (H0 & He & Hlt & Hmax).
  assert (queue s <> []) as Hne by (intros E; specialize (He E); lia).
  specialize (Hlt Hne). unfold len in Hlt.
  destruct (index_in_range (queue s) (currentTrack s - 1)) as [t Ht]; [lia|].
  exists t. split; [done|]. unfold prevTrack. rewrite Hsub.
  rewrite decide_False by lia. simpl. by rewrite Ht.
Qed.

(** X3. On a well-formed queue [prevTrack] at index 0 changes nothing.
    Elsewhere it moves [currentTrack] back by one and clears the [ended] flag
    of the track it arrives at; every other entry, the one it leaves
    included, is as before; the stream is rebuilt from the new flags and the
    speaker is cleared and started. *)
Theorem prevTrack_spec s :
  well_formed s ->
  (currentTrack s = 0 -> prevTrack s = Some s) /\
  (currentTrack s <> 0 ->
   exists t s',
     index (queue s) (currentTrack s - 1) = Some t /\
     prevTrack s = Some s' /\
     currentTrack s' = currentTrack s - 1 /\
     queue s' = store (queue s) (currentTrack s - 1) (set_ended false t) /\
     index (queue s') (currentTrack s) = index (queue s) (currentTrack s) /\
     in_sync s' /\
     speaker s' = speaker s ++ [Lock; Unlock; Clear; Clear; Play]).
Proof.
  intros Hwf. split; [by apply prevTrack_at_head|]. intros Hc.
  destruct (prevTrack_moves s Hwf Hc) as (t & Ht & Hp).
  exists t. eexists. split; [done|]. split; [exact Hp|].
  rewrite currentTrack_play, queue_play, speaker_play. simpl.
  split; [done|]. split; [done|]. split; [|split].
  - unfold index, store. rewrite length_insert.
    destruct (decide (0 <= currentTrack s < Z.of_nat (length (queue s)))); [|done].
    apply list_lookup_insert_ne. lia.
  - apply in_sync_play. unfold in_sync. simpl. f_equal. apply rebuild_play_order.
  - apply index_Some in Ht as [Hi _]. unfold len. simpl. rewrite length_store.
    rewrite decide_True by lia. by rewrite <- !app_assoc.
Qed.

(** X4. [nextTrack] followed by [prevTrack], from a track that is not the
    last one: the index is back where it was and the track's [ended] flag is
    cleared, so the queue is the one before the two calls whenever that track
    was not ended. *)
Theorem next_then_prev s :
  well_formed s -> queue s <> [] -> currentTrack s <> len s - 1 ->
  exists t s1 s2,
    index (queue s) (currentTrack s) = Some t /\
    nextTrack s = Some s1 /\ prevTrack s1 = Some s2 /\
    currentTrack s2 = currentTrack s /\
    queue s2 = store (queue s) (currentTrack s) (set_ended false t) /\
    (ended t = false -> queue s2 = queue s).
Proof.
  intros Hwf Hne Hnot.
  destruct (nextTrack_before_last s Hwf Hne Hnot) as (t & Ht & Hn).
  assert (well_formed (play (call_speaker [Clear] (rebuildStreamer
            (set_currentTrack (currentTrack s + 1)
               (set_queue (store (queue s) (currentTrack s) (set_ended true t)) s))))))
    as Hwf1.
  { apply (well_formed_exec OpNext s); [done|exact Hn]. }
  destruct (prevTrack_moves _ Hwf1) as (t1 & Ht1 & Hp).
  { rewrite currentTrack_play. simpl. destruct Hwf as (? & _). lia. }
  rewrite currentTrack_play, queue_play in Ht1, Hp. simpl in Ht1, Hp.
  replace (currentTrack s + 1 - 1) with (currentTrack s) in Ht1, Hp by lia.
  pose proof Ht as Ht'. apply index_Some in Ht' as [Hi Hl].
  assert (t1 = set_ended true t) as ->.
  { apply index_Some in Ht1 as [_ Ht1]. unfold store in Ht1.
    rewrite list_lookup_insert_eq in Ht1 by lia. by injection Ht1. }
  exists t. eexists _, _. split; [done|]. split; [exact Hn|]. split; [exact Hp|].
  rewrite currentTrack_play, queue_play. simpl.
  split; [done|]. unfold store. rewrite list_insert_insert_eq. split; [done|].
  intros He. apply list_insert_id. rewrite Hl. f_equal.
  destruct t. simpl in *. by rewrite He.
Qed.

(** X5. At the last track a second [nextTrack] changes nothing more. *)
Theorem nextTrack_at_last_idempotent s :
  well_formed s -> queue s <> [] -> currentTrack s = len s - 1 ->
  exists s1, nextTrack s = Some s1 /\ nextTrack s1 = Some s1.
Proof.
  intros Hwf Hne Hlast. destruct (nextTrack_at_last s Hwf Hne Hlast) as (t & Ht & Hn).
  eexists. split; [exact Hn|].
  assert (well_formed (set_queue (store (queue s) (currentTrack s) (set_ended true t)) s))
    as Hwf1 by (apply (well_formed_exec OpNext s); [done|exact Hn]).
  apply index_Some in Ht as [Hi Hl].
  destruct (nextTrack_at_last _ Hwf1) as (t1 & Ht1 & ->).
  - simpl. intros E. apply (f_equal length) in E. rewrite length_store in E.
    simpl in E. lia.
  - unfold len. simpl. rewrite length_store. exact Hlast.
  - simpl in *. apply index_Some in Ht1 as [_ Ht1]. unfold store in Ht1.
    rewrite list_lookup_insert_eq in Ht1 by lia. injection Ht1 as <-.
    unfold store. by rewrite list_insert_insert_eq.
Qed.

(** X6. Every call that moves the current index, and every [addTrack] and
    [restartQueue], leaves the installed stream in step with the queue: it
    plays exactly the tracks that are not ended. *)
Theorem moving_calls_resync o s s' :
  exec o s = Some s' ->
  match o with
  | OpAdd _ | OpRestartAll => True
  | OpNext | OpPrev => currentTrack s' <> currentTrack s
  | _ => False
  end ->
  in_sync s'.
Proof.
  destruct o as [t|name| | | |i| | | | | |p]; simpl; try done.
  - unfold addTrack. destruct (go_append (queue s) t); [simpl|done].
    intros [= <-] _. apply in_sync_rebuild.
  - unfold nextTrack.
    destruct (decide (len s <> 0)) as [Hl|Hl];
      [destruct (index (queue s) (currentTrack s)) as [t|]; [simpl|done]|simpl].
    + destruct (decide (_ >= _)); [by intros [= <-]|].
      intros [= <-] _. apply in_sync_play. unfold in_sync. simpl. f_equal.
      apply rebuild_play_order.
    + destruct (decide (_ >= _)); [by intros [= <-]|].
      intros [= <-] _. apply in_sync_play. unfold in_sync. simpl. f_equal.
      apply rebuild_play_order.
  - unfold prevTrack. destruct (decide (_ < 0)); [by intros [= <-]|]. simpl.
    destruct (index (queue s) (GoInt.sub (currentTrack s) 1)); [simpl|done].
    intros [= <-] _. apply in_sync_play. unfold in_sync. simpl. f_equal.
    apply rebuild_play_order.
  - unfold restartQueue.
    destruct (restartQueue_loop _ s); [simpl|done].
    intros [= <-] _. apply in_sync_rebuild.
Qed.

(** ** restart, in detail *)

(** The entry [restartTrack] rewrites keeps its path, stream and format; the
    gain, the pause flag and the current index are not touched. *)
Lemma restartTrack_entry s i s' :
  restartTrack s i = Some s' ->
  exists t h d t',
    index (queue s) i = Some t /\ stream t = Some h /\ decoders s !! h = Some d /\
    queue s' = <[Z.to_nat i := t']> (queue s) /\
    path t' = path t /\ stream t' = stream t /\ format t' = format t /\
    ended t' = false /\
    decoders s' = <[h := decoder_Seek d 0]> (decoders s) /\
    volume s' = volume s /\ volumeChange s' = volumeChange s /\
    ctrl_Paused (ctrl s') = ctrl_Paused (ctrl s) /\
    currentTrack s' = currentTrack s /\
    (position d = length_ d -> in_sync s') /\
    speaker s' =
      speaker s ++ (if decide (position d = length_ d)
                    then [Lock; Unlock; Lock; Unlock; Clear; Play] else []).
Proof.
  unfold restartTrack. destruct (index (queue s) i) as [t|] eqn:Ht; [simpl|done].
  destruct (stream t) as [h|] eqn:Hh; [simpl|done].
  destruct (decoders s !! h) as [d|] eqn:Hd; [simpl|done].
  pose proof Ht as Hi. apply index_Some in Hi as [Hi _].
  destruct (decide (position d = length_ d)) as [E|E].
  - rewrite bool_decide_eq_true_2 by done. intros [= <-].
    eexists t, h, d, _.
    rewrite queue_play, decoders_play, volume_play, volumeChange_play, ctrl_play,
      currentTrack_play, speaker_play. simpl.
    unfold store. rewrite list_insert_insert_eq.
    do 13 (split; [done|]).
    split.
    + intros _. apply in_sync_play. unfold in_sync. simpl. f_equal.
      apply rebuild_play_order.
    + unfold len. simpl. rewrite length_insert.
      rewrite (decide_True (P := Z.of_nat (length (queue s)) <> 0)) by lia.
      rewrite (decide_True (P := position d = length_ d)) by done.
      by rewrite <- !app_assoc.
  - rewrite bool_decide_eq_false_2 by done. intros [= <-].
    exists t, h, d, (set_ended false t). simpl.
    rewrite (decide_False (P := position d = length_ d)) by done.
    rewrite app_nil_r. by repeat split.
Qed.

(** X7. On a track whose open decoder has reached its length,
    [restartTrack] returns: the decoder is back at 0, the track is not ended,
    the installed stream is rebuilt from the new flags, and the speaker is
    cleared and started; the current index does not move. *)
Theorem restartTrack_replays s i t h d :
  index (queue s) i = Some t -> stream t = Some h -> decoders s !! h = Some d ->
  position d = length_ d -> closed d = false -> 0 <= length_ d ->
  exists s' t',
    restartTrack s i = Some s' /\
    decoders s' !! h = Some (mkDecoder 0 (length_ d) false) /\
    index (queue s') i = Some t' /\ ended t' = false /\ path t' = path t /\
    in_sync s' /\
    currentTrack s' = currentTrack s /\
    speaker s' = speaker s ++ [Lock; Unlock; Lock; Unlock; Clear; Play].
Proof.
  intros Ht Hh Hd He Hc Hl.
  destruct (restartTrack_at_end s i t h d Ht Hh Hd He) as (s' & Hr & _).
  destruct (restartTrack_entry s i s' Hr)
    as (t0 & h0 & d0 & t' & Ht0 & Hh0 & Hd0 & Hq & Hp & _ & _ & Hen & Hm & _ & _ & _
        & Hcur & Hsync & Hsp).
  rewrite Ht in Ht0. injection Ht0 as <-.
  rewrite Hh in Hh0. injection Hh0 as <-.
  rewrite Hd in Hd0. injection Hd0 as <-.
  exists s', t'. split; [done|]. split; [|split; [|split; [|split; [|split; [|split]]]]].
  - rewrite Hm, lookup_insert_eq. f_equal. unfold decoder_Seek. rewrite Hc.
    by rewrite decide_True by lia.
  - apply index_Some in Ht as [Hi _]. apply index_Some. rewrite Hq, length_insert.
    split; [done|]. apply list_lookup_insert_eq. lia.
  - done.
  - done.
  - by apply Hsync.
  - done.
  - rewrite Hsp. by rewrite decide_True.
Qed.

(** What the loop of [restartQueue] has done when it returns: every index
    it visited holds a track that is not ended; paths and streams are those
    of the start. *)
Lemma restartQueue_loop_entries idx s s' :
  restartQueue_loop idx s = Some s' ->
  length (queue s') = length (queue s) /\
  (forall (i : nat) t', queue s' !! i = Some t' ->
     exists t, queue s !! i = Some t /\ path t' = path t /\ stream t' = stream t /\
               format t' = format t /\
               (ended t' = true -> ended t = true /\ i ∉ idx)) /\
  volume s' = volume s /\ volumeChange s' = volumeChange s /\
  ctrl_Paused (ctrl s') = ctrl_Paused (ctrl s).
Proof.
  revert s. induction idx as [|k idx IH]; intros s; simpl.
  - intros [= <-]. split; [done|]. split; [|done].
    intros i t' Hi. exists t'. do 4 (split; [done|]). intros He.
    split; [done|]. apply not_elem_of_nil.
  - destruct (restartTrack s (Z.of_nat k)) as [s1|] eqn:E; [simpl|done].
    intros Hl. apply IH in Hl as (Hlen & Hent & Hv & Hvc & Hp).
    apply restartTrack_entry in E
      as (t & h & d & t1 & Ht & _ & _ & Hq & Hpath & Hst & Hfmt & Hen & _ & Hv1
          & Hvc1 & Hp1 & _).
    rewrite Nat2Z.id in Hq. apply index_Some in Ht as [Hk Ht]. rewrite Nat2Z.id in Ht.
    split; [by rewrite Hlen, Hq, length_insert|].
    split; [|by rewrite Hv, Hvc, Hp].
    intros i t' Hi. destruct (Hent i t' Hi) as (x & Hx & Hxp & Hxs & Hxf & Hxe).
    rewrite Hq in Hx. apply list_lookup_insert_Some in Hx as [(-> & -> & _)|[Hne Hx]].
    + exists t. split; [done|]. split; [congruence|]. split; [congruence|].
      split; [congruence|]. intros He. destruct (Hxe He) as [He1 _]. congruence.
    + exists x. split; [done|]. do 3 (split; [done|]).
      intros He. destruct (Hxe He) as [? ?]. split; [done|].
      intros Hin. apply elem_of_cons in Hin as [->|?]; done.
Qed.

(** X8. When [restartQueue] returns, no track is ended, the current index
    is 0, the queue holds the same paths and streams in the same order, and
    the installed stream plays every track of the queue in order. *)
Theorem restartQueue_spec s s' :
  restartQueue s = Some s' ->
  currentTrack s' = 0 /\
  (forall t, t ∈ queue s' -> ended t = false) /\
  path <$> queue s' = path <$> queue s /\
  stream <$> queue s' = stream <$> queue s /\
  play_order <$> ctrl_Streamer (ctrl s') =
    Some (flat_map (fun t => [Resampled (resampled t); Callback "f"%string]) (queue s')).
Proof.
  unfold restartQueue.
  destruct (restartQueue_loop (seq 0 (length (queue s))) s) as [s1|] eqn:E; [simpl|done].
  intros [= <-]. simpl.
  apply restartQueue_loop_entries in E as (Hlen & Hent & _).
  assert (forall t, t ∈ queue s1 -> ended t = false) as Hall.
  { intros t Ht. apply list_elem_of_lookup in Ht as [i Hi].
    destruct (ended t) eqn:He; [|done].
    destruct (Hent i t Hi) as (x & Hx & _ & _ & _ & Hxe).
    destruct (Hxe He) as [_ Hni]. destruct Hni. apply elem_of_seq.
    apply lookup_lt_Some in Hx. lia. }
  split; [done|]. split; [done|]. split; [|split].
  - apply list_eq. intros i. rewrite !list_lookup_fmap.
    destruct (queue s1 !! i) as [t'|] eqn:Hi.
    + destruct (Hent i t' Hi) as (x & Hx & Hxp & _). rewrite Hx. simpl.
      by rewrite Hxp.
    + apply lookup_ge_None in Hi. rewrite Hlen in Hi.
      apply lookup_ge_None in Hi. by rewrite Hi.
  - apply list_eq. intros i. rewrite !list_lookup_fmap.
    destruct (queue s1 !! i) as [t'|] eqn:Hi.
    + destruct (Hent i t' Hi) as (x & Hx & _ & Hxs & _). rewrite Hx. simpl.
      by rewrite Hxs.
    + apply lookup_ge_None in Hi. rewrite Hlen in Hi.
      apply lookup_ge_None in Hi. by rewrite Hi.
  - f_equal.
    change (flat_map play_order (fold_left rebuild_step (queue s1) []))
      with (play_order (Seq (fold_left rebuild_step (queue s1) []))).
    rewrite rebuild_play_order. f_equal.
    clear -Hall. induction (queue s1) as [|t q IH]; [done|].
    rewrite filter_cons. rewrite decide_True by (apply Hall; by left).
    f_equal. apply IH. intros x Hx. apply Hall. by right.
Qed.

(** ** clear *)

(** The loop of [clear]: it returns when every track holds a decoder of the
    store; every such decoder is then closed, positions and lengths are kept,
    and no other decoder is touched. *)
Lemma clear_loop_spec q (m m' : gmap handle decoder) :
  clear_loop q m = Some m' ->
  (forall t, t ∈ q -> exists h d, stream t = Some h /\ m' !! h = Some d /\ closed d = true) /\
  (forall h, Some h ∉ stream <$> q -> m' !! h = m !! h) /\
  (forall h d, m !! h = Some d ->
     exists d', m' !! h = Some d' /\ position d' = position d /\
                length_ d' = length_ d /\ (closed d = true -> closed d' = true)).
Proof.
  revert m. induction q as [|t q IH]; intros m; simpl.
  - intros [= <-]. split; [|split].
    + intros t Ht. by apply elem_of_nil in Ht.
    + done.
    + intros h d Hd. by exists d.
  - destruct (stream t) as [h0|] eqn:Hh; [simpl|done].
    destruct (m !! h0) as [d0|] eqn:Hd0; [simpl|done].
    intros Hl. apply IH in Hl as (Hclosed & Hother & Hkeep).
    split; [|split].
    + intros x Hx. apply elem_of_cons in Hx as [->|Hx]; [|by apply Hclosed].
      destruct (Hkeep h0 (decoder_Close d0)) as (d' & Hd' & _ & _ & Hc);
        [apply lookup_insert_eq|].
      exists h0, d'. split; [done|]. split; [done|]. by apply Hc.
    + intros h Hh0. rewrite Hother.
      * apply lookup_insert_ne. intros ->. apply Hh0. by left.
      * intros Hin. apply Hh0. by right.
    + intros h d Hd. destruct (decide (h = h0)) as [->|Hne].
      * rewrite Hd0 in Hd. injection Hd as <-.
        destruct (Hkeep h0 (decoder_Close d0)) as (d' & Hd' & Hp & Hlen & Hc);
          [apply lookup_insert_eq|].
        exists d'. split; [done|]. split; [done|]. split; [done|].
        intros _. by apply Hc.
      * apply Hkeep. by rewrite lookup_insert_ne.
Qed.

Lemma clear_loop_returns q (m : gmap handle decoder) :
  (forall t, t ∈ q -> exists h, stream t = Some h /\ is_Some (m !! h)) ->
  is_Some (clear_loop q m).
Proof.
  revert m. induction q as [|t q IH]; intros m Hall; simpl; [done|].
  destruct (Hall t) as (h & Hh & [d Hd]); [by left|].
  rewrite Hh. simpl. rewrite Hd. simpl.
  apply IH. intros x Hx. destruct (Hall x) as (hx & Hsx & [dx Hdx]); [by right|].
  exists hx. split; [done|]. destruct (decide (hx = h)) as [->|Hne].
  - rewrite lookup_insert_eq. by eexists.
  - rewrite lookup_insert_ne by done. by eexists.
Qed.

(** X9. [clear] returns as soon as every track holds a decoder. When it
    returns the queue is empty, the current index is 0, no stream is
    installed, every decoder the queue held is closed, no other decoder is
    touched, and the gain and the pause flag are as before. *)
Theorem clear_spec s :
  ((forall t, t ∈ queue s -> exists h, stream t = Some h /\ is_Some (decoders s !! h)) ->
   is_Some (clear s)) /\
  (forall s', clear s = Some s' ->
     queue s' = [] /\ currentTrack s' = 0 /\ ctrl_Streamer (ctrl s') = None /\
     (forall t, t ∈ queue s ->
        exists h d, stream t = Some h /\ decoders s' !! h = Some d /\ closed d = true) /\
     (forall h, Some h ∉ stream <$> queue s -> decoders s' !! h = decoders s !! h) /\
     volume s' = volume s /\ volumeChange s' = volumeChange s /\
     paused s' = paused s).
Proof.
  split.
  - intros Hall. unfold clear.
    destruct (clear_loop_returns (queue s) (decoders s) Hall) as [m ->]. by eexists.
  - intros s'. unfold clear.
    destruct (clear_loop (queue s) (decoders s)) as [m|] eqn:E; [simpl|done].
    intros [= <-]. simpl. apply clear_loop_spec in E as (Hclosed & Hother & _).
    by repeat split.
Qed.

(** ** remove, in detail *)

(** X10. [removeTrack] never panics on a queue that fits a slice. It takes
    at most one track out, in place, and touches nothing else: the installed
    stream still plays the removed track, its decoder is not closed, and the
    speaker is not called. *)
Theorem removeTrack_frame s name :
  len s <= GoInt.max_int ->
  exists s',
    removeTrack s name = Some s' /\
    sublist (queue s') (queue s) /\
    (length (queue s) <= S (length (queue s')))%nat /\
    ctrl s' = ctrl s /\ decoders s' = decoders s /\ speaker s' = speaker s /\
    volume s' = volume s /\ volumeChange s' = volumeChange s.
Proof.
  intros Hmax.
  destruct (removeTrack_loop_cases (queue s) name 0 0)
    as [[_ Hno]|(k & t & Hk & Ht & Hfirst & _)].
  - exists s. rewrite removeTrack_absent by done. split; [done|].
    split; [done|]. split; [lia|done].
  - eexists. rewrite (removeTrack_found s name k t) by done. split; [done|].
    simpl. split; [apply sublist_delete|]. split; [|done].
    pose proof (lookup_lt_Some _ _ _ Hk). rewrite length_delete by eauto. lia.
Qed.

(** ** What the calls leave alone *)

(** Only [changeVolume] writes the gain, only [pause] and [unpause] write
    the pause flag. *)
Lemma exec_frame o s s' :
  exec o s = Some s' ->
  (not_pause o -> ctrl_Paused (ctrl s') = ctrl_Paused (ctrl s)) /\
  ((forall p, o <> OpChangeVolume p) ->
   volume s' = volume s /\ volumeChange s' = volumeChange s).
Proof.
  destruct o as [t|name| | | |i| | | | | |p]; simpl.
  - unfold addTrack. destruct (go_append (queue s) t); [simpl|done].
    by intros [= <-].
  - unfold removeTrack. destruct (removeTrack_loop (queue s) name 0 0) as [ti pv].
    destruct (decide (ti = -1)); [by intros [= <-]|]. simpl.
    destruct (slices_Delete (queue s) ti (GoInt.add ti 1)); [simpl|done].
    by intros [= <-].
  - unfold nextTrack.
    destruct (decide (len s <> 0));
      [destruct (index (queue s) (currentTrack s)); [simpl|done]|simpl];
      (destruct (decide (_ >= _)); intros [= <-];
       rewrite ?ctrl_play, ?volume_play, ?volumeChange_play; done).
  - unfold prevTrack. destruct (decide (_ < 0)); [by intros [= <-]|]. simpl.
    destruct (index (queue s) (GoInt.sub (currentTrack s) 1)); [simpl|done].
    intros [= <-]. by rewrite ctrl_play, volume_play, volumeChange_play.
  - unfold restartCurrentTrack. destruct (decide (len s = 0)); [by intros [= <-]|].
    intros Hr. apply restartTrack_entry in Hr
      as (? & ? & ? & ? & _ & _ & _ & _ & _ & _ & _ & _ & _ & Hv & Hvc & Hp & _).
    done.
  - intros Hr. apply restartTrack_entry in Hr
      as (? & ? & ? & ? & _ & _ & _ & _ & _ & _ & _ & _ & _ & Hv & Hvc & Hp & _).
    done.
  - unfold restartQueue.
    destruct (restartQueue_loop (seq 0 (length (queue s))) s) as [s1|] eqn:E; [simpl|done].
    intros [= <-]. apply restartQueue_loop_entries in E as (_ & _ & Hv & Hvc & Hp).
    done.
  - unfold clear. destruct (clear_loop (queue s) (decoders s)); [simpl|done].
    by intros [= <-].
  - intros [= <-]. by rewrite ctrl_play, volume_play, volumeChange_play.
  - intros [= <-]. split; [by intros []|done].
  - intros [= <-]. split; [by intros []|done].
  - intros [= <-]. split.
    + intros _. unfold changeVolume. by case_decide.
    + intros Hp. by destruct (Hp p).
Qed.

(** X11. The pause flag changes only through [pause] and [unpause]: every
    other call of the queue, rebuilding the stream included, hands it on as
    it found it. *)
Theorem paused_kept o s s' :
  not_pause o -> exec o s = Some s' -> paused s' = paused s.
Proof.
  intros Hnp He. unfold paused. by apply (exec_frame o s s' He).
Qed.

Lemma gain_consistent_changeVolume s p :
  gain_consistent s -> gain_consistent (changeVolume s p).
Proof.
  intros (Hr & Hs & Hb). unfold changeVolume.
  destruct (decide (GoInt.add (volumeChange s) p < -100)) as [Hlt|Hge]; [done|].
  unfold gain_consistent. simpl. split; [|done].
  pose proof (GoInt_wrap_range (volumeChange s + p)) as [_ Hmax].
  unfold GoInt.add in *. lia.
Qed.

(** X12. In every reachable state the deviation is at least -100 (and fits
    an int), the hard-mute flag [Silent] is set exactly when it is -100, and
    the base of the gain stage is 10. *)
Theorem gain_invariant s : reachable s -> gain_consistent s.
Proof.
  induction 1 as [|s o s' _ IH Hex|s h d _ IH _|s h d n _ IH _ _].
  - unfold gain_consistent. simpl. pose proof GoInt_max_int_pos.
    split; [lia|]. by split.
  - destruct o as [t|name| | | |i| | | | | |p];
      try (destruct (exec_frame _ s s' Hex) as [_ Hv];
           destruct Hv as [Hv Hvc]; [done|];
           unfold gain_consistent; by rewrite Hv, Hvc).
    simpl in Hex. injection Hex as <-. by apply gain_consistent_changeVolume.
  - done.
  - done.
Qed.

(** ** What the speaker plays *)

Lemma removeTrack_frame_speaker s name s' :
  removeTrack s name = Some s' -> speaker s' = speaker s.
Proof.
  unfold removeTrack. destruct (removeTrack_loop (queue s) name 0 0) as [ti pv].
  destruct (decide (ti = -1)); [by intros [= <-]|]. simpl.
  destruct (slices_Delete (queue s) ti (GoInt.add ti 1)); [simpl|done].
  by intros [= <-].
Qed.

Lemma speaker_playing_app l l' :
  speaker_playing (l ++ l') =
  fold_left (fun n c => match c with
                        | Clear => 0%nat
                        | Play => S n
                        | _ => n
                        end) l' (speaker_playing l).
Proof. unfold speaker_playing. apply fold_left_app. Qed.

Lemma speaker_playing_play s :
  (speaker_playing (speaker (play s)) <= 1)%nat.
Proof.
  rewrite speaker_play, speaker_playing_app. case_decide; simpl; lia.
Qed.

Lemma speaker_playing_restartTrack s i s' :
  restartTrack s i = Some s' ->
  (speaker_playing (speaker s) <= 1)%nat -> (speaker_playing (speaker s') <= 1)%nat.
Proof.
  intros Hr Hle. apply restartTrack_entry in Hr
    as (? & ? & d & ? & _ & _ & _ & _ & _ & _ & _ & _ & _ & _ & _ & _ & _ & _ & ->).
  rewrite speaker_playing_app. case_decide; simpl; lia.
Qed.

Lemma speaker_playing_restartQueue_loop idx s s' :
  restartQueue_loop idx s = Some s' ->
  (speaker_playing (speaker s) <= 1)%nat -> (speaker_playing (speaker s') <= 1)%nat.
Proof.
  revert s. induction idx as [|k idx IH]; intros s; simpl.
  - by intros [= <-].
  - destruct (restartTrack s (Z.of_nat k)) as [s1|] eqn:E; [simpl|done].
    intros Hl Hle. apply (IH s1 Hl). by apply (speaker_playing_restartTrack s (Z.of_nat k)).
Qed.

(** X13. In every reachable state the speaker plays at most one streamer:
    each [speaker.Play] of the program comes right after a [speaker.Clear]. *)
Theorem one_stream_playing s :
  reachable s -> (speaker_playing (speaker s) <= 1)%nat.
Proof.
  induction 1 as [|s o s' _ IH Hex|s h d _ IH _|s h d n _ IH _ _];
    [unfold speaker_playing; simpl; lia| |done|done].
  - destruct o as [t|name| | | |i| | | | | |p]; simpl in Hex.
    + unfold addTrack in Hex. destruct (go_append (queue s) t); [simpl in Hex|done].
      injection Hex as <-. simpl. by rewrite speaker_playing_app.
    + by rewrite (removeTrack_frame_speaker s name s' Hex).
    + unfold nextTrack in Hex.
      destruct (decide (len s <> 0));
        [destruct (index (queue s) (currentTrack s)); [simpl in Hex|done]|simpl in Hex];
        (destruct (decide (_ >= _)); injection Hex as <-;
         [done|apply speaker_playing_play]).
    + unfold prevTrack in Hex. destruct (decide (_ < 0)); [by injection Hex as <-|].
      simpl in Hex.
      destruct (index (queue s) (GoInt.sub (currentTrack s) 1)); [simpl in Hex|done].
      injection Hex as <-. apply speaker_playing_play.
    + unfold restartCurrentTrack in Hex.
      destruct (decide (len s = 0)); [by injection Hex as <-|].
      by apply (speaker_playing_restartTrack s (currentTrack s)).
    + by apply (speaker_playing_restartTrack s i).
    + unfold restartQueue in Hex.
      destruct (restartQueue_loop (seq 0 (length (queue s))) s) as [s1|] eqn:E;
        [simpl in Hex|done].
      injection Hex as <-. simpl. rewrite speaker_playing_app. simpl.
      by apply (speaker_playing_restartQueue_loop (seq 0 (length (queue s))) s).
    + unfold clear in Hex. destruct (clear_loop (queue s) (decoders s)); [simpl in Hex|done].
      injection Hex as <-. simpl. by rewrite !speaker_playing_app.
    + injection Hex as <-. apply speaker_playing_play.
    + injection Hex as <-. simpl. by rewrite speaker_playing_app.
    + injection Hex as <-. simpl. by rewrite speaker_playing_app.
    + injection Hex as <-. unfold changeVolume. case_decide; [done|].
      simpl. rewrite speaker_playing_app. simpl. lia.
Qed.

End QueueProperties.

(** * Further properties of [loadTrack] *)

Lemma list_ascii_of_string_app (a b : string) :
  list_ascii_of_string (a +:+ b) = list_ascii_of_string a ++ list_ascii_of_string b.
Proof. induction a as [|c a IH]; simpl; [done|]. by rewrite IH. Qed.

Lemma string_of_list_ascii_app (l k : list ascii) :
  string_of_list_ascii (l ++ k) = (string_of_list_ascii l +:+ string_of_list_ascii k)%string.
Proof. induction l as [|c l IH]; simpl; [done|]. by rewrite IH. Qed.

(** A non-empty result of the scan of [filepath.Ext] is the dot it stopped
    at and what it had passed over. *)
Lemma ext_scan_dot (r acc e : list ascii) :
  ext_scan r acc = e -> e <> [] ->
  exists r1 r2, r = r1 ++ "."%char :: r2 /\ e = "."%char :: (rev r1 ++ acc).
Proof.
  revert acc. induction r as [|c r IH]; intros acc; simpl; [by intros <-|].
  destruct (isPathSeparator c); [by intros <-|].
  destruct (Ascii.eqb c ".") eqn:Hc.
  - apply Ascii.eqb_eq in Hc as ->. intros <- _. by exists [], r.
  - intros He Hne. destruct (IH _ He Hne) as (r1 & r2 & -> & ->).
    exists (c :: r1), r2. split; [done|]. simpl. by rewrite <- app_assoc.
Qed.

(** The format test of [loadTrack] passes exactly for the paths that end in
    ".mp3". *)
Lemma supported_iff_suffix (p : string) :
  slices_Contains supportedFormats
    (if decide (filepath_Ext p = ""%string) then filepath_Ext p
     else tail_string (filepath_Ext p)) = true
  <-> exists pre, p = (pre +:+ ".mp3")%string.
Proof.
  unfold slices_Contains, supportedFormats. rewrite bool_decide_eq_true.
  rewrite list_elem_of_singleton. split.
  - destruct (decide (filepath_Ext p = ""%string)) as [E|E]; [by rewrite E|].
    intros Htail. unfold filepath_Ext in *.
    destruct (ext_scan_dot (rev (list_ascii_of_string p)) []
                (ext_scan (rev (list_ascii_of_string p)) []))
      as (r1 & r2 & Hr & He); [done| |].
    { intros Hnil. by rewrite Hnil in E. }
    rewrite app_nil_r in He. rewrite He in Htail. simpl in Htail.
    exists (string_of_list_ascii (rev r2)).
    rewrite <- (string_of_list_ascii_of_string p).
    rewrite <- (rev_involutive (list_ascii_of_string p)), Hr.
    rewrite rev_app_distr. simpl. rewrite <- app_assoc. simpl.
    rewrite string_of_list_ascii_app. simpl. by rewrite Htail.
  - intros [pre ->]. unfold filepath_Ext.
    rewrite list_ascii_of_string_app, rev_app_distr. simpl. done.
Qed.

(** X14. [loadTrack] loads nothing but paths that end in ".mp3": a path
    with another ending gets [errFormatUnsupported] whatever the file system
    holds, and a path with that ending whose file opens, is not a directory
    and decodes, gives the track for that path, not ended, resampled from the
    file's rate to 44100. *)
Theorem loadTrack_mp3_only env (p : string) :
  (forall t, loadTrack env p = (t, None) -> exists pre, p = (pre +:+ ".mp3")%string) /\
  ((~ exists pre, p = (pre +:+ ".mp3")%string) ->
   loadTrack env p = (track_zero, Some errFormatUnsupported)) /\
  (forall pre f st fmt,
     p = (pre +:+ ".mp3")%string ->
     os_Open env p = inr f -> file_Stat env f = inr false ->
     mp3_Decode env f = (st, fmt, None) ->
     loadTrack env p =
       (mkTrack p st (Some (beep_Resample 4 (SampleRate fmt) 44100 st)) fmt false, None)).
Proof.
  pose proof (supported_iff_suffix p) as Hs. split; [|split].
  - intros t. unfold loadTrack.
    destruct (slices_Contains supportedFormats _) eqn:E; [|done].
    intros _. by apply Hs.
  - intros Hno. unfold loadTrack.
    destruct (slices_Contains supportedFormats _) eqn:E; [|done].
    destruct Hno. by apply Hs.
  - intros pre f st fmt Hp Hopen Hstat Hdec. unfold loadTrack.
    destruct (slices_Contains supportedFormats _) eqn:E.
    + simpl. by rewrite Hopen, Hstat, Hdec.
    + assert (false = true) by (apply Hs; by exists pre). done.
Qed.

(** What [loadTrack] returns without an error. *)
Lemma loadTrack_success env p t :
  loadTrack env p = (t, None) ->
  path t = p /\ ended t = false /\
  exists f, os_Open env p = inr f /\ file_Stat env f = inr false /\
            mp3_Decode env f = (stream t, format t, None).
Proof.
  unfold loadTrack. destruct (negb _); [done|].
  destruct (os_Open env p) as [e|f]; [done|].
  destruct (file_Stat env f) as [e|[|]] eqn:Hstat; [done..|].
  destruct (mp3_Decode env f) as [[st fmt] [e|]] eqn:Hdec; [done|].
  intros [= <-]. simpl. split; [done|]. split; [done|]. by exists f.
Qed.


(** * Properties of the controller *)

Section ControllerProperties.

Context {F : Float64}.

Implicit Types (s : tracksQueue) (t : track) (q : list track) (a : appState).

(** ** One [Update], case by case *)

Lemma on_queue_step env o a a' cmd :
  ui_call o -> on_queue (exec o) a = Some (a', cmd) ->
  queue_step env (app_tracksQueue a) (app_tracksQueue a') /\ browse_step env a a'.
Proof.
  intros Ho. unfold on_queue.
  destruct (exec o (app_tracksQueue a)) as [tq|] eqn:E; [simpl|done].
  intros [= <- <-]. split; [by apply (qs_call env o)|].
  left. simpl. auto 10.
Qed.

Lemma same_queue_step env a a' :
  app_tracksQueue a' = app_tracksQueue a ->
  queue_step env (app_tracksQueue a) (app_tracksQueue a').
Proof. intros ->. apply qs_same. Qed.

Lemma releaseResources_step env a a' :
  releaseResources a = Some a' ->
  queue_step env (app_tracksQueue a) (app_tracksQueue a') /\ browse_step env a a'.
Proof.
  unfold releaseResources.
  destruct (clear (app_tracksQueue a)) as [c|] eqn:E; [simpl|done].
  intros [= <-]. split; [by apply qs_release|]. left. simpl. auto 10.
Qed.

Lemma updateChoices_step env a a' :
  updateChoices env a = Some a' ->
  app_tracksQueue a' = app_tracksQueue a /\ cursor a' = cursor a /\
  currentDir a' = currentDir a /\
  os_ReadDir env (currentDir a') = inr (choices a').
Proof.
  unfold updateChoices. destruct (os_ReadDir env (currentDir a)) as [e|l] eqn:E; [done|].
  by intros [= <-].
Qed.

Lemma goUpDir_step env a :
  app_tracksQueue (goUpDir env a) = app_tracksQueue a /\
  (cursor (goUpDir env a) = 0 \/
   (cursor (goUpDir env a) = cursor a /\ currentDir (goUpDir env a) = currentDir a)).
Proof.
  unfold goUpDir.
  destruct (decide (filepath_Dir env (currentDir a) <> currentDir a)) as [Hne|Heq];
    simpl; [auto|].
  split; [done|]. right. split; [done|].
  by destruct (decide (filepath_Dir env (currentDir a) = currentDir a)).
Qed.

Lemma goToCursorDir_step env a a' :
  goToCursorDir env a = Some a' ->
  app_tracksQueue a' = app_tracksQueue a /\
  (cursor a' = 0 \/ (cursor a' = cursor a /\ currentDir a' = currentDir a)).
Proof.
  unfold goToCursorDir. destruct (decide (length (choices a) = 0%nat)).
  { intros [= <-]. auto. }
  destruct (index (choices a) (cursor a)) as [c|]; [simpl|done].
  destruct (os_Open (ui_os env) _) as [e|f]; [done|].
  destruct (file_Stat (ui_os env) f) as [e|[|]]; [done| |]; intros [= <-]; auto.
Qed.

Lemma Update_space_step env a a' cmd :
  Update_space env a = Some (a', cmd) ->
  queue_step env (app_tracksQueue a) (app_tracksQueue a') /\ browse_step env a a'.
Proof.
  unfold Update_space.
  assert (queue_step env (app_tracksQueue a) (app_tracksQueue a) /\ browse_step env a a)
    as Hsame by (split; [apply qs_same|left; auto 10]).
  destruct (decide (length (choices a) = 0%nat)); [by intros [= <- <-]|].
  destruct (index (choices a) (cursor a)) as [c|]; [simpl|done].
  destruct (hasTrack (app_tracksQueue a) _) eqn:Hhas; [by intros [= <- <-]|].
  destruct (loadTrack (ui_os env) _) as [t err] eqn:Hload.
  destruct (bool_decide (err = Some errFormatUnsupported)); [by intros [= <- <-]|].
  destruct (bool_decide (err = Some errFileIsNotTrack)); [by intros [= <- <-]|].
  destruct err as [e|].
  - destruct (releaseResources a) as [a1|] eqn:Hrel; [simpl|done].
    intros [= <- <-]. by apply releaseResources_step.
  - destruct (addTrack (register_decoder env t (app_tracksQueue a)) t) as [tq|] eqn:Hadd;
      [simpl|done].
    destruct (decide (_ < _)) as [Hlt|Hge]; intros [= <- <-]; simpl.
    + split; [by eapply qs_load|]. left. simpl. auto 10.
    + split; [by eapply qs_load|]. left. simpl. auto 10.
Qed.

Lemma Update_key_step env a key a' cmd :
  Update_key env a key = Some (a', cmd) ->
  queue_step env (app_tracksQueue a) (app_tracksQueue a') /\ browse_step env a a'.
Proof.
  assert (queue_step env (app_tracksQueue a) (app_tracksQueue a) /\ browse_step env a a)
    as Hsame by (split; [apply qs_same|left; auto 10]).
  unfold Update_key.
  destruct (key_is key ["ctrl+c"; "q"]%string).
  { destruct (releaseResources a) as [a1|] eqn:Hrel; [simpl|done].
    intros [= <- <-]. by apply releaseResources_step. }
  destruct (key_is key ["up"; "k"]%string).
  { destruct (decide (cursor a > 0)); intros [= <- <-]; [|done].
    split; [apply qs_same|]. left. simpl. auto 10. }
  destruct (key_is key ["r"]%string); [by apply (on_queue_step env OpRestart)|].
  destruct (key_is key ["R"]%string); [by apply (on_queue_step env OpRestartAll)|].
  destruct (key_is key ["d"]%string).
  { destruct (decide (length (choices a) <> 0%nat)); [|by intros [= <- <-]].
    destruct (index (choices a) (cursor a)) as [name|]; [simpl|done].
    by apply (on_queue_step env (OpRemove name)). }
  destruct (key_is key ["down"; "j"]%string).
  { destruct (decide (cursor a < _)); intros [= <- <-]; [|done].
    split; [apply qs_same|]. left. simpl. auto 10. }
  destruct (key_is key ["f"]%string); [by apply (on_queue_step env OpNext)|].
  destruct (key_is key ["F"]%string); [by apply (on_queue_step env OpPrev)|].
  destruct (key_is key ["-"]%string).
  { destruct (updateChoices env (goUpDir env a)) as [a1|] eqn:Hup; [simpl|done].
    intros [= <- <-]. apply updateChoices_step in Hup as (Hq & Hc & Hd & Hl).
    destruct (goUpDir_step env a) as [Hq0 Hc0].
    split; [apply same_queue_step; congruence|]. right. split; [done|].
    by rewrite Hc, Hd. }
  destruct (key_is key [" "]%string); [apply Update_space_step|].
  destruct (key_is key ["c"]%string); [by apply (on_queue_step env OpClear)|].
  destruct (key_is key ["p"]%string).
  { destruct (decide (length (choices a) = 0%nat)); [by intros [= <- <-]|].
    destruct (paused (app_tracksQueue a));
      [by apply (on_queue_step env OpUnpause)|by apply (on_queue_step env OpPause)]. }
  destruct (key_is key ["]"]%string).
  { apply (on_queue_step env (OpChangeVolume 10)). by left. }
  destruct (key_is key ["["]%string).
  { apply (on_queue_step env (OpChangeVolume (-10))). by right. }
  destruct (key_is key ["?"]%string).
  { intros [= <- <-]. split; [apply qs_same|]. left. simpl. auto 10. }
  destruct (key_is key ["enter"]%string); [|by intros [= <- <-]].
  destruct (goToCursorDir env a) as [a1|] eqn:Hgo; [simpl|done].
  destruct (updateChoices env a1) as [a2|] eqn:Hup; [simpl|done].
  intros [= <- <-]. apply updateChoices_step in Hup as (Hq & Hc & Hd & Hl).
  apply goToCursorDir_step in Hgo as (Hq1 & Hc1).
  split; [apply same_queue_step; congruence|]. right. split; [done|].
  rewrite Hc, Hd. done.
Qed.

Lemma Update_step env a msg a' cmd :
  Update env a msg = Some (a', cmd) ->
  queue_step env (app_tracksQueue a) (app_tracksQueue a') /\ browse_step env a a'.
Proof.
  destruct msg as [m|key|]; simpl.
  - by apply (on_queue_step env OpNext).
  - apply Update_key_step.
  - intros [= <- <-]. split; [apply qs_same|left; auto 10].
Qed.

(** ** What one call does to the identity of the tracks *)

Lemma track_ids_insert q (i : nat) t t' :
  q !! i = Some t -> path t' = path t -> stream t' = stream t ->
  track_ids (<[i := t']> q) = track_ids q.
Proof.
  intros Hi Hp Hs. unfold track_ids. rewrite list_fmap_insert.
  apply list_insert_id. rewrite list_lookup_fmap, Hi. simpl. by rewrite Hp, Hs.
Qed.

Lemma track_ids_paths q : path <$> q = fst <$> track_ids q.
Proof. unfold track_ids. rewrite <- list_fmap_compose. done. Qed.

Lemma restartTrack_ids s i s' :
  restartTrack s i = Some s' ->
  track_ids (queue s') = track_ids (queue s) /\
  (forall h, is_Some (decoders s !! h) -> is_Some (decoders s' !! h)).
Proof.
  intros Hr. apply restartTrack_entry in Hr
    as (t & h & d & t' & Ht & _ & Hd & Hq & Hp & Hs & _ & _ & Hm & _).
  apply index_Some in Ht as [_ Ht]. split.
  - rewrite Hq. by apply (track_ids_insert _ _ t).
  - intros h' Hh'. rewrite Hm. destruct (decide (h = h')) as [<-|Hne].
    + rewrite lookup_insert_eq. by eexists.
    + by rewrite lookup_insert_ne.
Qed.

Lemma restartQueue_loop_ids idx s s' :
  restartQueue_loop idx s = Some s' ->
  track_ids (queue s') = track_ids (queue s) /\
  (forall h, is_Some (decoders s !! h) -> is_Some (decoders s' !! h)).
Proof.
  revert s. induction idx as [|k idx IH]; intros s; simpl.
  - by intros [= <-].
  - destruct (restartTrack s (Z.of_nat k)) as [s1|] eqn:E; [simpl|done].
    intros Hl. apply IH in Hl as [Hids Hkeep].
    apply restartTrack_ids in E as [Hids1 Hkeep1].
    split; [congruence|]. intros h Hh. by apply Hkeep, Hkeep1.
Qed.

Lemma slices_Delete_sublist {A} (l l' : list A) (i j : Z) :
  slices_Delete l i j = Some l' -> sublist l' l.
Proof.
  unfold slices_Delete. case_decide as Hb; [|done]. intros [= <-].
  rewrite <- (take_drop (Z.to_nat i) l) at 3.
  apply sublist_app; [done|].
  replace (Z.to_nat j) with (Z.to_nat i + (Z.to_nat j - Z.to_nat i))%nat by lia.
  rewrite <- drop_drop. apply sublist_drop.
Qed.

Lemma removeTrack_sublist s name s' :
  removeTrack s name = Some s' ->
  sublist (queue s') (queue s) /\ decoders s' = decoders s.
Proof.
  unfold removeTrack. destruct (removeTrack_loop (queue s) name 0 0) as [ti pv].
  destruct (decide (ti = -1)); [by intros [= <-]|]. simpl.
  destruct (slices_Delete (queue s) ti (GoInt.add ti 1)) as [q'|] eqn:E; [simpl|done].
  intros [= <-]. simpl. split; [|done]. by apply slices_Delete_sublist in E.
Qed.

(** A call of the controller other than loading leaves the tracks it keeps
    with their paths and streams, in order, and forgets no decoder. *)
Lemma ui_call_ids o s s' :
  ui_call o -> exec o s = Some s' ->
  sublist (track_ids (queue s')) (track_ids (queue s)) /\
  (forall h, is_Some (decoders s !! h) -> is_Some (decoders s' !! h)).
Proof.
  destruct o as [t|name| | | |i| | | | | |p]; simpl; try done; intros _.
  - intros Hr. apply removeTrack_sublist in Hr as [Hsub ->].
    split; [by apply fmap_sublist|done].
  - unfold nextTrack.
    destruct (decide (len s <> 0));
      [destruct (index (queue s) (currentTrack s)) as [t|] eqn:Ht; [simpl|done]|simpl];
      (destruct (decide (_ >= _)); intros [= <-];
       rewrite ?queue_play, ?decoders_play; simpl; (split; [|done]));
      try done;
      apply index_Some in Ht as [_ Ht];
      unfold store; by rewrite (track_ids_insert _ _ t).
  - unfold prevTrack. destruct (decide (_ < 0)); [by intros [= <-]|]. simpl.
    destruct (index (queue s) (GoInt.sub (currentTrack s) 1)) as [t|] eqn:Ht; [simpl|done].
    intros [= <-]. rewrite queue_play, decoders_play. simpl. split; [|done].
    apply index_Some in Ht as [_ Ht]. unfold store.
    by rewrite (track_ids_insert _ _ t).
  - unfold restartCurrentTrack. destruct (decide (len s = 0)); [by intros [= <-]|].
    intros Hr. apply restartTrack_ids in Hr as [-> ?]. done.
  - unfold restartQueue.
    destruct (restartQueue_loop (seq 0 (length (queue s))) s) as [s1|] eqn:E; [simpl|done].
    intros [= <-]. simpl. apply restartQueue_loop_ids in E as [-> ?]. done.
  - unfold clear. destruct (clear_loop (queue s) (decoders s)) as [m|] eqn:E; [simpl|done].
    intros [= <-]. simpl. split; [apply sublist_nil_l|].
    intros h [d Hd]. apply clear_loop_spec in E as (_ & _ & Hkeep).
    destruct (Hkeep h d Hd) as (d' & -> & _). by eexists.
  - by intros [= <-].
  - by intros [= <-].
  - intros [= <-]. by rewrite queue_changeVolume, decoders_changeVolume.
Qed.

(** ** What every state of the controller satisfies *)

Lemma live_decoders_ids s s' :
  sublist (track_ids (queue s')) (track_ids (queue s)) ->
  (forall h, is_Some (decoders s !! h) -> is_Some (decoders s' !! h)) ->
  live_decoders s -> live_decoders s'.
Proof.
  intros Hsub Hkeep Hlive t Ht.
  assert ((path t, stream t) ∈ track_ids (queue s)) as Hin.
  { eapply elem_of_sublist; [|exact Hsub]. unfold track_ids.
    apply list_elem_of_fmap. by exists t. }
  unfold track_ids in Hin. apply list_elem_of_fmap in Hin as (t0 & Heq & Ht0).
  injection Heq as _ Hst. destruct (Hlive t0 Ht0) as (h & Hh & Hd).
  exists h. split; [congruence|]. by apply Hkeep.
Qed.

Lemma queue_step_ok env s s' :
  env_decode_streams env -> queue_step env s s' ->
  well_formed s /\ NoDup (path <$> queue s) /\ live_decoders s ->
  well_formed s' /\ NoDup (path <$> queue s') /\ live_decoders s'.
Proof.
  intros Henv Hstep (Hwf & Hnd & Hlive).
  destruct Hstep as [s|o s s' Ho Hex|p t s s1 Hhas Hload Hadd|s c Hclear].
  - done.
  - destruct (ui_call_ids o s s' Ho Hex) as [Hsub Hkeep].
    split; [by apply (well_formed_exec o s)|]. split.
    + rewrite track_ids_paths.
      apply (sublist_NoDup _ (fst <$> track_ids (queue s)));
        [by rewrite <- track_ids_paths|by apply fmap_sublist].
    + by apply (live_decoders_ids s).
  - apply loadTrack_success in Hload as (Hp & _ & f & _ & _ & Hdec).
    destruct (stream t) as [h|] eqn:Hst; [|by destruct (Henv f (format t))].
    assert (well_formed (register_decoder env t s)) as Hwf1.
    { unfold register_decoder. rewrite Hst. by apply (well_formed_same s). }
    assert (queue s1 = queue s ++ [t] /\
            decoders s1 = <[h := mp3_decoder env h]> (decoders s)) as [Hq Hm].
    { unfold addTrack, go_append in Hadd. unfold register_decoder in Hadd.
      rewrite Hst in Hadd. simpl in Hadd.
      destruct (decide (Z.of_nat (length (queue s)) < GoInt.max_int)); [|done].
      simpl in Hadd. by injection Hadd as <-. }
    split; [|split].
    + apply (well_formed_exec OpPlay s1); [|done].
      by apply (well_formed_exec (OpAdd t) (register_decoder env t s)).
    + rewrite queue_play, Hq, fmap_app. simpl. apply NoDup_app.
      split; [done|]. split; [|apply NoDup_singleton].
      intros x Hx Hin. apply list_elem_of_singleton in Hin as ->.
      apply hasTrack_paths in Hx. congruence.
    + intros x. rewrite queue_play, decoders_play, Hq, Hm. intros Hx.
      apply elem_of_app in Hx as [Hx|Hx].
      * destruct (Hlive x Hx) as (hx & Hhx & Hdx). exists hx. split; [done|].
        destruct (decide (h = hx)) as [<-|Hne].
        -- rewrite lookup_insert_eq. by eexists.
        -- by rewrite lookup_insert_ne.
      * apply list_elem_of_singleton in Hx as ->. exists h. split; [done|].
        rewrite lookup_insert_eq. by eexists.
  - split; [by apply (well_formed_same s)|]. split; [done|].
    intros t Ht. simpl in *. destruct (Hlive t Ht) as (h & Hh & [d Hd]).
    exists h. split; [done|]. unfold clear in Hclear.
    destruct (clear_loop (queue s) (decoders s)) as [m|] eqn:E; [simpl in Hclear|done].
    injection Hclear as <-. simpl. apply clear_loop_spec in E as (_ & _ & Hkeep).
    destruct (Hkeep h d Hd) as (d' & -> & _). by eexists.
Qed.

Lemma ui_reachable_ok env a :
  env_decode_streams env -> ui_reachable env a ->
  well_formed (app_tracksQueue a) /\
  NoDup (path <$> queue (app_tracksQueue a)) /\
  live_decoders (app_tracksQueue a).
Proof.
  intros Henv. induction 1 as [dir a Hinit|a msg a' cmd _ IH Hup|a h d n _ IH Hd Hn].
  - apply updateChoices_step in Hinit as (-> & _). simpl.
    split; [apply well_formed_new|]. split; [apply NoDup_nil_2|].
    intros t Ht. by apply elem_of_nil in Ht.
  - apply Update_step in Hup as [Hstep _]. by apply (queue_step_ok env _ _ Henv Hstep).
  - destruct IH as (Hwf & Hnd & Hlive). simpl.
    split; [by apply (well_formed_same (app_tracksQueue a))|]. split; [done|].
    intros t Ht. destruct (Hlive t Ht) as (hx & Hhx & Hdx). exists hx.
    split; [done|]. simpl. destruct (decide (h = hx)) as [<-|Hne].
    + rewrite lookup_insert_eq. by eexists.
    + by rewrite lookup_insert_ne.
Qed.

Lemma queue_step_well_formed env s s' :
  queue_step env s s' -> well_formed s -> well_formed s'.
Proof.
  intros Hstep Hwf.
  destruct Hstep as [s|o s s' Ho Hex|p t s s1 Hhas Hload Hadd|s c Hclear].
  - done.
  - by apply (well_formed_exec o s).
  - apply (well_formed_exec OpPlay s1); [|done].
    apply (well_formed_exec (OpAdd t) (register_decoder env t s)); [|done].
    unfold register_decoder. destruct (stream t); [|done].
    by apply (well_formed_same s).
  - by apply (well_formed_same s).
Qed.

Lemma ui_reachable_well_formed env a :
  ui_reachable env a -> well_formed (app_tracksQueue a).
Proof.
  induction 1 as [dir a Hinit|a msg a' cmd _ IH Hup|a h d n _ IH Hd Hn].
  - apply updateChoices_step in Hinit as (-> & _). apply well_formed_new.
  - apply Update_step in Hup as [Hstep _]. by apply (queue_step_well_formed env _ _ Hstep).
  - by apply (well_formed_same (app_tracksQueue a)).
Qed.

(** X16. In every state of the controller the queue is well formed, no two
    tracks of the queue have the same path, and every track holds a decoder
    of the store: the [hasTrack] test before [loadTrack] keeps paths unique
    through all the keys. The header of the view can always read the current
    track. *)
Theorem ui_queue_invariant env a :
  env_decode_streams env -> ui_reachable env a ->
  well_formed (app_tracksQueue a) /\
  NoDup (path <$> queue (app_tracksQueue a)) /\
  live_decoders (app_tracksQueue a) /\
  exists t found, getCurrentTrack (app_tracksQueue a) = Some (t, found).
Proof.
  intros Henv Hr. destruct (ui_reachable_ok env a Henv Hr) as (Hwf & Hnd & Hlive).
  do 3 (split; [done|]). unfold getCurrentTrack.
  destruct (decide (len (app_tracksQueue a) = 0)) as [E|E]; [by eexists _, _|].
  destruct (well_formed_index _ Hwf) as [t Ht]; [by rewrite <- len_zero|].
  rewrite Ht. by eexists _, _.
Qed.

(** ** The volume keys *)

Lemma GoInt_wrap_over z :
  GoInt.max_int < z < 2 ^ 64 + 2 ^ 63 -> GoInt.wrap z = z - 2 ^ 64.
Proof.
  unfold GoInt.max_int, GoInt.wrap. intros Hz.
  replace (z + 2 ^ 63) with (z + 2 ^ 63 - 2 ^ 64 + 1 * 2 ^ 64) by lia.
  rewrite Z.mod_add by lia. rewrite Z.mod_small by lia. lia.
Qed.

Lemma GoInt_wrap_under z :
  - 2 ^ 64 - 2 ^ 63 <= z < GoInt.min_int -> GoInt.wrap z = z + 2 ^ 64.
Proof.
  unfold GoInt.min_int, GoInt.wrap. intros Hz.
  replace (z + 2 ^ 63) with (z + 2 ^ 63 + 2 ^ 64 + (-1) * 2 ^ 64) by lia.
  rewrite Z.mod_add by lia. rewrite Z.mod_small by lia. lia.
Qed.

Lemma changeVolume_step10 s p :
  p = 10 \/ p = -10 -> gain_consistent s -> (10 | volumeChange s) ->
  (10 | volumeChange (changeVolume s p)).
Proof.
  intros Hp ((Hlo & Hhi) & _) Hdiv. unfold changeVolume.
  destruct (decide (GoInt.add (volumeChange s) p < -100)) as [Hlt|Hge]; [done|].
  simpl. unfold GoInt.add in *.
  destruct (decide (volumeChange s + p <= GoInt.max_int)) as [Hin|Hout].
  - rewrite GoInt_wrap_in_range
      by (unfold GoInt.in_range, GoInt.min_int, GoInt.max_int in *; lia).
    apply Z.divide_add_r; [done|]. destruct Hp as [->| ->]; [by exists 1|by exists (-1)].
  - rewrite GoInt_wrap_over in Hge; unfold GoInt.max_int in *; lia.
Qed.

Lemma queue_step_gain env s s' :
  queue_step env s s' ->
  gain_consistent s /\ (10 | volumeChange s) ->
  gain_consistent s' /\ (10 | volumeChange s').
Proof.
  intros Hstep [Hg Hdiv].
  destruct Hstep as [s|o s s' Ho Hex|p t s s1 Hhas Hload Hadd|s c Hclear].
  - done.
  - destruct o as [t|name| | | |i| | | | | |p];
      try (destruct (exec_frame _ s s' Hex) as [_ Hv];
           destruct Hv as [Hv Hvc]; [done|];
           unfold gain_consistent; by rewrite Hv, Hvc).
    simpl in Hex. injection Hex as <-.
    split; [by apply gain_consistent_changeVolume|by apply changeVolume_step10].
  - assert (volume s1 = volume s /\ volumeChange s1 = volumeChange s) as [Hv Hvc].
    { unfold addTrack in Hadd.
      destruct (go_append (queue (register_decoder env t s)) t); [simpl in Hadd|done].
      injection Hadd as <-. unfold register_decoder. by destruct (stream t). }
    unfold gain_consistent. by rewrite volume_play, volumeChange_play, Hv, Hvc.
  - done.
Qed.

(** X17. Through the keys of the controller the deviation of the volume is
    always a multiple of 10, at least -100, with [Silent] set exactly at
    -100: a step that would leave the range of an int is rejected like a
    step below -100. *)
Theorem ui_volume_steps env a :
  ui_reachable env a ->
  gain_consistent (app_tracksQueue a) /\ (10 | volumeChange (app_tracksQueue a)).
Proof.
  induction 1 as [dir a Hinit|a msg a' cmd _ IH Hup|a h d n _ IH Hd Hn].
  - apply updateChoices_step in Hinit as (-> & _). simpl.
    split; [|by exists 0]. unfold gain_consistent. simpl.
    pose proof GoInt_max_int_pos. split; [lia|]. by split.
  - apply Update_step in Hup as [Hstep _]. by apply (queue_step_gain env _ _ Hstep).
  - done.
Qed.

(** ** The cursor *)

Lemma browse_step_cursor env a a' :
  env_listings_fit env -> browse_step env a a' ->
  cursor_ok env a -> cursor_ok env a'.
Proof.
  intros Hfit Hstep (Hlist & H0 & He & Hlt & Hmax).
  pose proof GoInt_min_int_neg. pose proof GoInt_max_int_pos.
  assert (choices a <> [] -> 0 < Z.of_nat (length (choices a))) as Hpos.
  { intros Hne. destruct (choices a); [done|]. simpl. lia. }
  destruct Hstep as [(Hd & Hc & Hcur)|[Hl Hcur]].
  - unfold cursor_ok. rewrite Hd, Hc. split; [done|].
    assert (cursor a < Z.of_nat (length (choices a)) \/ choices a = []) as Hin.
    { destruct (decide (choices a = [])); [by right|left; by apply Hlt]. }
    destruct Hcur as [->|[[Hgt ->]|[[Hdown ->]|[Hsp ->]]]].
    + done.
    + assert (choices a <> []) as Hne by (intros E; specialize (He E); lia).
      specialize (Hlt Hne).
      rewrite GoInt_sub_exact by (unfold GoInt.in_range; lia).
      repeat split; [lia|done|lia|done].
    + rewrite GoInt_sub_exact in Hdown by (unfold GoInt.in_range; lia).
      rewrite GoInt_add_exact by (unfold GoInt.in_range; lia).
      repeat split; [lia| |lia|done].
      intros E. rewrite E in Hdown. simpl in Hdown. lia.
    + assert (GoInt.add (cursor a) 1 = cursor a + 1) as Hadd.
      { apply GoInt_add_exact. unfold GoInt.in_range.
        destruct Hin as [Hin|E]; [lia|]. rewrite (He E). lia. }
      rewrite Hadd in *. repeat split; [lia| |lia|done].
      intros E. rewrite E in Hsp. simpl in Hsp. lia.
  - destruct Hcur as [Hc|[Hc Hd]].
    + unfold cursor_ok. rewrite Hc. split; [done|]. split; [done|]. split; [done|].
      split; [|by apply (Hfit (currentDir a'))].
      intros Hne. destruct (choices a'); [done|]. simpl. lia.
    + assert (choices a' = choices a) as Hch by (rewrite Hd in Hl; congruence).
      unfold cursor_ok. by rewrite Hd, Hch, Hc.
Qed.

Lemma ui_reachable_cursor env a :
  env_listings_fit env -> ui_reachable env a -> cursor_ok env a.
Proof.
  intros Hfit Hr.
  induction Hr as [dir a Hinit|a msg a' cmd _ IH Hup|a h d n _ IH Hd Hn].
  - pose proof Hinit as Hi. apply updateChoices_step in Hi as (_ & Hc & Hd & Hl).
    simpl in Hc. unfold cursor_ok. rewrite Hc. split; [done|]. split; [done|].
    split; [done|]. split; [|by apply (Hfit (currentDir a))].
    intros Hne. destruct (choices a); [done|]. simpl. lia.
  - apply Update_step in Hup as [_ Hstep]. by apply (browse_step_cursor env a).
  - done.
Qed.

(** X18. In every state of the controller the cursor is a row of the
    listing of the current directory (0 when the listing is empty), so the
    row the keys "d", space and enter read from [choices] exists. *)
Theorem cursor_in_listing env a :
  env_listings_fit env -> ui_reachable env a ->
  cursor_ok env a /\
  (choices a <> [] -> exists choice, index (choices a) (cursor a) = Some choice).
Proof.
  intros Hfit Hr. pose proof (ui_reachable_cursor env a Hfit Hr) as Hok.
  split; [done|]. intros Hne. destruct Hok as (_ & H0 & _ & Hlt & _).
  apply index_in_range. split; [done|by apply Hlt].
Qed.

(** ** Keys that cannot panic *)

Lemma restartTrack_returns s i :
  is_Some (index (queue s) i) -> live_decoders s -> is_Some (restartTrack s i).
Proof.
  intros [t Ht] Hlive. unfold restartTrack. rewrite Ht. simpl.
  destruct (Hlive t) as (h & Hh & [d Hd]).
  { apply index_Some in Ht as [_ Ht]. by eapply list_elem_of_lookup_2. }
  rewrite Hh. simpl. rewrite Hd. simpl. by destruct (bool_decide _).
Qed.

Lemma restartQueue_loop_returns idx s :
  (forall k : nat, k ∈ idx -> (k < length (queue s))%nat) ->
  live_decoders s -> is_Some (restartQueue_loop idx s).
Proof.
  revert s. induction idx as [|k idx IH]; intros s Hidx Hlive; simpl; [done|].
  destruct (restartTrack_returns s (Z.of_nat k)) as [s1 Hr].
  { apply index_in_range. specialize (Hidx k). split; [lia|].
    apply Nat2Z.inj_lt. apply Hidx. by left. }
  { done. }
  rewrite Hr. simpl. pose proof Hr as Hids. apply restartTrack_ids in Hids as [Hids Hkeep].
  apply IH.
  - intros j Hj. apply restartTrack_frame in Hr as [-> _]. apply Hidx. by right.
  - apply (live_decoders_ids s); [by rewrite Hids|done..].
Qed.

Lemma clear_returns s : live_decoders s -> is_Some (clear s).
Proof.
  intros Hlive. unfold clear.
  destruct (clear_loop_returns (queue s) (decoders s) Hlive) as [m ->]. by eexists.
Qed.

Lemma removeTrack_returns s name :
  len s <= GoInt.max_int -> is_Some (removeTrack s name).
Proof.
  intros Hmax.
  destruct (removeTrack_loop_cases (queue s) name 0 0)
    as [[_ Hno]|(k & t & Hk & Ht & Hfirst & _)].
  - rewrite removeTrack_absent by done. by eexists.
  - rewrite (removeTrack_found s name k t) by done. by eexists.
Qed.

Lemma on_queue_returns (f : tracksQueue -> option tracksQueue) a :
  is_Some (f (app_tracksQueue a)) -> exists a' cmd, on_queue f a = Some (a', cmd).
Proof. intros [tq Hf]. unfold on_queue. rewrite Hf. simpl. by eexists _, _. Qed.

Lemma key_is_not key (k : string) (l : list string) :
  key ∉ l -> k ∈ l -> key_is key [k] = false.
Proof.
  intros Hk Hin. unfold key_is. apply bool_decide_eq_false. intros Hkey.
  apply list_elem_of_singleton in Hkey as ->. by apply Hk.
Qed.

(** X19. In every state of the controller, the end-of-track message and
    every key that does not read the file system ("-", space and enter do)
    make [Update] return: no index is out of range, no stream is nil. *)
Theorem Update_returns env a msg :
  env_listings_fit env -> env_decode_streams env -> ui_reachable env a ->
  match msg with MsgKey key => key ∉ file_keys | _ => True end ->
  exists a' cmd, Update env a msg = Some (a', cmd).
Proof.
  intros Hfit Henv Hr Hmsg.
  destruct (ui_reachable_ok env a Henv Hr) as (Hwf & _ & Hlive).
  pose proof (ui_reachable_cursor env a Hfit Hr) as (_ & H0 & _ & Hlt & _).
  assert (is_Some (nextTrack (app_tracksQueue a))) as Hnext.
  { destruct (nextTrack_step _ Hwf) as (s' & -> & _). by eexists. }
  destruct msg as [m|key|]; simpl; [by apply on_queue_returns| |by eexists _, _].
  unfold Update_key.
  destruct (key_is key ["ctrl+c"; "q"]%string).
  { unfold releaseResources. destruct (clear_returns _ Hlive) as [c ->]. simpl.
    by eexists _, _. }
  destruct (key_is key ["up"; "k"]%string).
  { destruct (decide (cursor a > 0)); by eexists _, _. }
  destruct (key_is key ["r"]%string).
  { apply on_queue_returns. unfold restartCurrentTrack.
    destruct (decide (len (app_tracksQueue a) = 0)) as [E|E]; [by eexists|].
    apply restartTrack_returns; [|done].
    destruct (well_formed_index _ Hwf) as [t Ht]; [by rewrite <- len_zero|].
    by eexists. }
  destruct (key_is key ["R"]%string).
  { apply on_queue_returns. unfold restartQueue.
    destruct (restartQueue_loop_returns (seq 0 (length (queue (app_tracksQueue a))))
                (app_tracksQueue a)) as [s1 ->]; [|done|by eexists].
    intros k Hk. apply elem_of_seq in Hk. lia. }
  destruct (key_is key ["d"]%string).
  { destruct (decide (length (choices a) <> 0%nat)) as [Hne|]; [|by eexists _, _].
    destruct (index_in_range (choices a) (cursor a)) as [name ->].
    { split; [done|]. apply Hlt. by destruct (choices a). }
    simpl. apply on_queue_returns. apply removeTrack_returns. by destruct Hwf as (_ & _ & _ & ?). }
  destruct (key_is key ["down"; "j"]%string).
  { destruct (decide (cursor a < _)); by eexists _, _. }
  destruct (key_is key ["f"]%string); [by apply on_queue_returns|].
  destruct (key_is key ["F"]%string).
  { apply on_queue_returns. destruct (prevTrack_step _ Hwf) as (s' & -> & _). by eexists. }
  rewrite (key_is_not key "-" file_keys) by (done || (unfold file_keys; by left)).
  rewrite (key_is_not key " " file_keys)
    by (done || (unfold file_keys; right; by left)).
  destruct (key_is key ["c"]%string).
  { apply on_queue_returns. by apply clear_returns. }
  destruct (key_is key ["p"]%string).
  { destruct (decide (length (choices a) = 0%nat)); [by eexists _, _|].
    destruct (paused (app_tracksQueue a)); by apply on_queue_returns. }
  destruct (key_is key ["]"]%string); [by apply on_queue_returns|].
  destruct (key_is key ["["]%string); [by apply on_queue_returns|].
  destruct (key_is key ["?"]%string); [by eexists _, _|].
  rewrite (key_is_not key "enter" file_keys)
    by (done || (unfold file_keys; right; right; by left)).
  by eexists _, _.
Qed.

(** ** The view *)

Lemma View_window_bounds a :
  GoInt.in_range (cursor a) ->
  Z.of_nat (length (choices a)) <= GoInt.max_int ->
  0 <= (View_window a).1 /\
  (View_window a).2 <= Z.of_nat (length (choices a)) /\
  (View_window a).2 - (View_window a).1 <= 16 /\
  (0 <= cursor a < Z.of_nat (length (choices a)) -> cursor a + 8 <= GoInt.max_int ->
   (View_window a).1 <= cursor a < (View_window a).2).
Proof.
  intros [Hlo Hhi] Hfit. unfold View_window.
  change (Z.quot choicesWindowSize 2) with 8.
  assert (GoInt.sub (cursor a) 8 = cursor a - 8 \/
          (cursor a - 8 < GoInt.min_int /\ GoInt.sub (cursor a) 8 = cursor a - 8 + 2 ^ 64))
    as Hsub.
  { destruct (decide (GoInt.min_int <= cursor a - 8)).
    - left. apply GoInt_sub_exact. unfold GoInt.in_range. lia.
    - right. split; [lia|]. apply GoInt_wrap_under.
      unfold GoInt.min_int, GoInt.max_int in *. lia. }
  assert (GoInt.add (cursor a) 8 = cursor a + 8 \/
          (GoInt.max_int < cursor a + 8 /\ GoInt.add (cursor a) 8 = cursor a + 8 - 2 ^ 64))
    as Hadd.
  { destruct (decide (cursor a + 8 <= GoInt.max_int)).
    - left. apply GoInt_add_exact. unfold GoInt.in_range. lia.
    - right. split; [lia|]. apply GoInt_wrap_over.
      unfold GoInt.min_int, GoInt.max_int in *. lia. }
  unfold GoInt.min_int, GoInt.max_int in *. simpl.
  destruct Hsub as [->|[? ->]]; destruct Hadd as [->|[? ->]];
    repeat case_decide; lia.
Qed.

Lemma View_row_returns a (i : Z) :
  0 <= i < Z.of_nat (length (choices a)) -> is_Some (View_row a i).
Proof.
  intros Hi. unfold View_row. destruct (index_in_range (choices a) i Hi) as [c ->].
  by eexists.
Qed.

(** The rows of the view never index [choices] out of range, whatever the
    cursor, and there are at most 16 of them. *)
Lemma View_rows_returns a :
  GoInt.in_range (cursor a) ->
  Z.of_nat (length (choices a)) <= GoInt.max_int ->
  exists rows, View_rows a = Some rows /\ (length rows <= 16)%nat /\
    length rows = Z.to_nat ((View_window a).2 - (View_window a).1).
Proof.
  intros Hc Hfit. destruct (View_window_bounds a Hc Hfit) as (Hfirst & Hlast & Hsize & _).
  unfold View_rows. destruct (View_window a) as [first last]. simpl in *.
  destruct (mapM_is_Some_2 (View_row a) (seqZ first (last - first))) as [rows Hrows].
  { apply Forall_forall. intros i Hi. apply elem_of_seqZ in Hi.
    apply View_row_returns. lia. }
  exists rows. split; [done|]. apply length_mapM in Hrows.
  rewrite length_seqZ in Hrows. lia.
Qed.

(** X20. For a cursor that is a Go int and a listing that fits a slice,
    [View] renders at most 16 rows and indexes no choice out of range; when
    the cursor is a row of the listing, the row of the cursor is among them. *)
Theorem View_rows_window a :
  GoInt.in_range (cursor a) ->
  Z.of_nat (length (choices a)) <= GoInt.max_int ->
  exists rows,
    View_rows a = Some rows /\ (length rows <= 16)%nat /\
    (0 <= cursor a < Z.of_nat (length (choices a)) -> cursor a + 8 <= GoInt.max_int ->
     exists row, View_row a (cursor a) = Some row /\
       rows !! Z.to_nat (cursor a - (View_window a).1) = Some row).
Proof.
  intros Hc Hfit. destruct (View_rows_returns a Hc Hfit) as (rows & Hrows & Hlen & _).
  exists rows. split; [done|]. split; [done|]. intros Hin Hroom.
  destruct (View_window_bounds a Hc Hfit) as (Hfirst & Hlast & Hsize & Hcur).
  specialize (Hcur Hin Hroom). unfold View_rows in Hrows.
  destruct (View_window a) as [first last]. simpl in *.
  apply mapM_Some_1 in Hrows.
  destruct (Forall2_lookup_l _ _ _ (Z.to_nat (cursor a - first)) (cursor a) Hrows)
    as (row & Hrow & Hview).
  { rewrite lookup_seqZ_lt by lia. f_equal. lia. }
  by exists row.
Qed.

(** X21. In every state of the controller, [View] returns a string. *)
Theorem View_returns env a :
  env_listings_fit env -> ui_reachable env a -> exists text, View a = Some text.
Proof.
  intros Hfit Hr. pose proof (ui_reachable_well_formed env a Hr) as Hwf.
  pose proof (ui_reachable_cursor env a Hfit Hr) as (_ & H0 & He & Hlt & Hmax).
  unfold View. destruct (showHelp a); [by eexists|].
  assert (exists r, getCurrentTrack (app_tracksQueue a) = Some r) as [[t ok] ->].
  { unfold getCurrentTrack.
    destruct (decide (len (app_tracksQueue a) = 0)) as [E|E]; [by eexists|].
    destruct (well_formed_index _ Hwf) as [t Ht]; [by rewrite <- len_zero|].
    rewrite Ht. by eexists. }
  simpl. destruct (View_rows_returns a) as (rows & -> & _); [|done|by eexists].
  pose proof GoInt_min_int_neg. unfold GoInt.in_range.
  destruct (decide (choices a = [])) as [E|E]; [rewrite (He E); lia|].
  specialize (Hlt E). lia.
Qed.

(** The mark of a choice, by the first track of the queue with that base
    name, if any. *)
Lemma View_checked_cases q (j current : Z) (choice : string) :
  (View_checked q j current choice = " "%string /\
   forall t, t ∈ q -> ~ named choice t) \/
  (exists (k : nat) t,
      q !! k = Some t /\ named choice t /\
      (forall (i : nat) y, q !! i = Some y -> (i < k)%nat -> ~ named choice y) /\
      View_checked q j current choice =
        if decide (j + Z.of_nat k = current) then "*"%string else ">"%string).
Proof.
  revert j. induction q as [|t q IH]; intros j; simpl.
  - left. split; [done|]. intros t Ht. by apply elem_of_nil in Ht.
  - destruct (decide (filepath_Base (path t) <> choice)) as [E|E].
    + destruct (IH (j + 1)) as [[H1 Hno]|(k & x & Hk & Hx & Hfirst & Hr)].
      * left. split; [done|]. intros y Hy.
        apply elem_of_cons in Hy as [->|Hy]; [done|by apply Hno].
      * right. exists (S k), x. do 2 (split; [done|]). split.
        -- intros [|i] y Hy Hi; simpl in Hy; [by injection Hy as <-|].
           apply (Hfirst i); [done|lia].
        -- rewrite Hr. replace (j + Z.of_nat (S k)) with (j + 1 + Z.of_nat k) by lia.
           done.
    + right. exists 0%nat, t. split; [done|]. split.
      { unfold named. by destruct (decide (filepath_Base (path t) = choice)). }
      split; [intros i y _ Hi; lia|].
      replace (j + Z.of_nat 0) with j by lia. done.
Qed.

(** X22. The mark [View] puts before a choice is a blank exactly when no
    track of the queue has that base name, and a star exactly when the first
    track with that base name is the current one. *)
Theorem View_checked_spec q (current : Z) (choice : string) :
  (View_checked q 0 current choice = " "%string <->
   forall t, t ∈ q -> filepath_Base (path t) <> choice) /\
  (View_checked q 0 current choice = "*"%string <->
   exists (k : nat) t,
     q !! k = Some t /\ filepath_Base (path t) = choice /\
     (forall (i : nat) y, q !! i = Some y -> (i < k)%nat ->
                          filepath_Base (path y) <> choice) /\
     Z.of_nat k = current).
Proof.
  destruct (View_checked_cases q 0 current choice)
    as [[H1 Hno]|(k & x & Hk & Hx & Hfirst & Hr)].
  - split; [by split|]. rewrite H1. split; [done|].
    intros (k & t & Hk & Ht & _). destruct (Hno t); [|done].
    by eapply list_elem_of_lookup_2.
  - rewrite Hr. split.
    + split.
      * by destruct (decide (0 + Z.of_nat k = current)).
      * intros Hno. destruct (Hno x); [by eapply list_elem_of_lookup_2|done].
    + split.
      * destruct (decide (0 + Z.of_nat k = current)) as [E|E]; [|done].
        intros _. exists k, x. do 3 (split; [done|]). lia.
      * intros (k' & t' & Hk' & Ht' & Hfirst' & Hcur).
        assert (k = k') as <- by eauto using first_named_unique.
        rewrite decide_True by lia. done.
Qed.

(** ** Quitting *)

(** X23. On "q" or "ctrl+c", in a state where every track holds a decoder,
    [Update] returns [tea.Quit]: every decoder of the queue is closed and no
    stream is installed, while the model handed back still lists the tracks,
    since [releaseResources] cleared a copy of the queue. *)
Theorem Update_quit env a key :
  key ∈ ["ctrl+c"; "q"]%string -> live_decoders (app_tracksQueue a) ->
  exists a',
    Update env a (MsgKey key) = Some (a', CmdQuit) /\
    queue (app_tracksQueue a') = queue (app_tracksQueue a) /\
    currentTrack (app_tracksQueue a') = currentTrack (app_tracksQueue a) /\
    ctrl_Streamer (ctrl (app_tracksQueue a')) = None /\
    (forall t, t ∈ queue (app_tracksQueue a') ->
       exists h d, stream t = Some h /\
         decoders (app_tracksQueue a') !! h = Some d /\ closed d = true) /\
    cursor a' = cursor a /\ choices a' = choices a.
Proof.
  intros Hkey Hlive. simpl. unfold Update_key, key_is.
  rewrite bool_decide_eq_true_2 by done. unfold releaseResources.
  destruct (clear (app_tracksQueue a)) as [c|] eqn:E;
    [|by destruct (clear_returns _ Hlive) as [c Hc]; rewrite Hc in E].
  simpl. eexists. split; [done|]. simpl. do 2 (split; [done|]).
  unfold clear in E.
  destruct (clear_loop (queue (app_tracksQueue a)) (decoders (app_tracksQueue a)))
    as [m|] eqn:El; [simpl in E|done].
  injection E as <-. simpl. split; [done|]. split; [|done].
  by apply clear_loop_spec in El as (Hclosed & _).
Qed.

End ControllerProperties.

(** ** The further properties on runs of the example queue *)

Module Checks.
Import Examples Session.

Lemma well_formed_abc : well_formed abc.
Proof. unfold well_formed, len. simpl. repeat split; done. Qed.

Lemma well_formed_abc_first : well_formed abc_first.
Proof. unfold well_formed, len. simpl. repeat split; done. Qed.

Lemma env_decodes : env_decode_streams env.
Proof. intros f fmt. simpl. discriminate. Qed.

Lemma env_fits : env_listings_fit env.
Proof.
  intros dir l. simpl. destruct (decide (dir = "/music"%string)); intros [= <-]; done.
Qed.

Lemma reachable_start : ui_reachable env start.
Proof. by apply (ui_init env "/music"). Qed.

Lemma reachable_after_space : ui_reachable env after_space.
Proof.
  apply (ui_update env start (MsgKey " ") after_space CmdNil);
    [exact reachable_start|reflexivity].
Qed.

Lemma addTrack_unique_paths_witness :
  NoDup (path <$> queue enqueued) /\
  hasTrack enqueued (path b_mp3) = false /\
  exists s', addTrack enqueued b_mp3 = Some s' /\
    NoDup (path <$> queue s') /\ hasTrack s' (path b_mp3) = true.
Proof.
  assert (NoDup (path <$> queue enqueued)) as Hnd by compute_done.
  split; [exact Hnd|]. split; [reflexivity|].
  destruct (addTrack enqueued b_mp3) as [s'|] eqn:E; [|by vm_compute in E].
  exists s'. split; [reflexivity|].
  destruct (addTrack_unique_paths enqueued b_mp3 s' Hnd eq_refl E) as (H1 & H2 & _).
  by split.
Defined.

Lemma prevTrack_spec_witness :
  well_formed abc /\
  exists s', prevTrack abc = Some s' /\ currentTrack s' = 1.
Proof.
  split; [exact well_formed_abc|].
  destruct (prevTrack_spec abc well_formed_abc) as [_ Hmove].
  destruct Hmove as (t & s' & _ & Hp & Hc & _); [done|].
  exists s'. by split.
Defined.

Lemma next_then_prev_witness :
  well_formed abc_first /\ queue abc_first <> [] /\
  currentTrack abc_first <> len abc_first - 1 /\
  exists s1 s2, nextTrack abc_first = Some s1 /\ prevTrack s1 = Some s2 /\
    currentTrack s2 = 0 /\ queue s2 = queue abc_first.
Proof.
  split; [exact well_formed_abc_first|]. split; [done|]. split; [done|].
  destruct (next_then_prev abc_first well_formed_abc_first)
    as (t & s1 & s2 & Ht & Hn & Hp & Hc & _ & Hq); [done..|].
  exists s1, s2. do 3 (split; [done|]). apply Hq. by injection Ht as <-.
Defined.

Lemma nextTrack_at_last_idempotent_witness :
  well_formed abc /\ queue abc <> [] /\ currentTrack abc = len abc - 1 /\
  exists s1, nextTrack abc = Some s1 /\ nextTrack s1 = Some s1.
Proof.
  split; [exact well_formed_abc|]. split; [done|]. split; [done|].
  by apply (nextTrack_at_last_idempotent abc well_formed_abc).
Defined.

Lemma moving_calls_resync_witness :
  exists s', exec OpNext abc_first = Some s' /\
    currentTrack s' <> currentTrack abc_first /\ in_sync s'.
Proof.
  destruct (exec OpNext abc_first) as [s'|] eqn:E; [|by vm_compute in E].
  assert (currentTrack s' <> currentTrack abc_first) as Hc.
  { vm_compute in E. injection E as <-. done. }
  exists s'. split; [reflexivity|]. split; [exact Hc|].
  exact (moving_calls_resync OpNext abc_first s' E Hc).
Defined.

Lemma restartTrack_replays_witness :
  index (queue finished) 0 = Some (set_ended true a_mp3) /\
  decoders finished !! 0%nat = Some played /\
  exists s', restartTrack finished 0 = Some s' /\
    decoders s' !! 0%nat = Some fresh /\ in_sync s'.
Proof.
  split; [reflexivity|]. split; [reflexivity|].
  destruct (restartTrack_replays finished 0 (set_ended true a_mp3) 0%nat played)
    as (s' & t' & Hr & Hd & _ & _ & _ & Hs & _); [reflexivity..|done|].
  exists s'. by split.
Defined.

Lemma restartQueue_spec_witness :
  exists s', restartQueue finished = Some s' /\
    currentTrack s' = 0 /\ forall t, t ∈ queue s' -> ended t = false.
Proof.
  destruct (restartQueue finished) as [s'|] eqn:E; [|by vm_compute in E].
  exists s'. split; [reflexivity|].
  destruct (restartQueue_spec finished s' E) as (Hc & Hall & _). by split.
Defined.

Lemma clear_spec_witness :
  exists s', clear finished = Some s' /\ queue s' = [] /\
    decoders s' !! 0%nat = Some (decoder_Close played).
Proof.
  destruct (clear_spec finished) as [Hret Hspec].
  destruct Hret as [s' Hs'].
  { intros t Ht. apply list_elem_of_singleton in Ht as ->. exists 0%nat.
    split; [reflexivity|]. by eexists. }
  exists s'. split; [exact Hs'|].
  destruct (Hspec s' Hs') as (Hq & _). split; [exact Hq|].
  vm_compute in Hs'. by injection Hs' as <-.
Defined.

Lemma removeTrack_frame_witness :
  len abc <= GoInt.max_int /\
  exists s', removeTrack abc "b.mp3" = Some s' /\
    ctrl s' = ctrl abc /\ decoders s' = decoders abc.
Proof.
  assert (len abc <= GoInt.max_int) as Hlen by done.
  split; [exact Hlen|].
  destruct (removeTrack_frame abc "b.mp3" Hlen) as (s' & Hr & _ & _ & Hc & Hd & _).
  exists s'. by split.
Defined.

Lemma paused_kept_witness :
  not_pause OpNext /\
  exists s', exec OpNext (pause abc_first) = Some s' /\ paused s' = true.
Proof.
  split; [exact I|].
  destruct (exec OpNext (pause abc_first)) as [s'|] eqn:E; [|by vm_compute in E].
  exists s'. split; [reflexivity|].
  by rewrite (paused_kept OpNext (pause abc_first) s' I E).
Defined.

Lemma gain_invariant_witness :
  reachable enqueued /\ gain_consistent enqueued.
Proof.
  split; [exact Scenarios.reachable_enqueued|].
  exact (gain_invariant enqueued Scenarios.reachable_enqueued).
Defined.

Lemma one_stream_playing_witness :
  reachable enqueued /\ (speaker_playing (speaker enqueued) <= 1)%nat.
Proof.
  split; [exact Scenarios.reachable_enqueued|].
  exact (one_stream_playing enqueued Scenarios.reachable_enqueued).
Defined.

Lemma loadTrack_mp3_only_witness :
  (~ exists pre, "/music/notes.txt"%string = (pre +:+ ".mp3")%string) /\
  loadTrack good_env "/music/notes.txt" = (track_zero, Some errFormatUnsupported) /\
  loadTrack good_env "/music/a.mp3" = (a_mp3, None).
Proof.
  destruct (loadTrack_mp3_only good_env "/music/notes.txt") as (_ & Hno & _).
  destruct (loadTrack_mp3_only good_env "/music/a.mp3") as (_ & _ & Hyes).
  assert (~ exists pre, "/music/notes.txt"%string = (pre +:+ ".mp3")%string) as Hsuf.
  { intros [pre Hpre]. apply (f_equal list_ascii_of_string) in Hpre.
    rewrite list_ascii_of_string_app in Hpre. apply (f_equal (@rev _)) in Hpre.
    rewrite rev_app_distr in Hpre. simpl in Hpre. discriminate. }
  split; [exact Hsuf|]. split; [exact (Hno Hsuf)|].
  exact (Hyes "/music/a" 3%nat (Some 0%nat) (mkFormat 48000 2 2)
              eq_refl eq_refl eq_refl eq_refl).
Defined.


Lemma ui_queue_invariant_witness :
  env_decode_streams env /\ ui_reachable env after_space /\
  well_formed (app_tracksQueue after_space) /\
  NoDup (path <$> queue (app_tracksQueue after_space)).
Proof.
  split; [exact env_decodes|]. split; [exact reachable_after_space|].
  destruct (ui_queue_invariant env after_space env_decodes reachable_after_space)
    as (Hwf & Hnd & _).
  by split.
Defined.

Lemma ui_volume_steps_witness :
  ui_reachable env after_space /\
  (10 | volumeChange (app_tracksQueue after_space)).
Proof.
  split; [exact reachable_after_space|].
  by destruct (ui_volume_steps env after_space reachable_after_space).
Defined.

Lemma cursor_in_listing_witness :
  env_listings_fit env /\ ui_reachable env after_space /\
  cursor_ok env after_space.
Proof.
  split; [exact env_fits|]. split; [exact reachable_after_space|].
  by destruct (cursor_in_listing env after_space env_fits reachable_after_space).
Defined.

Lemma Update_returns_witness :
  env_listings_fit env /\ env_decode_streams env /\ ui_reachable env after_space /\
  (("R" : string) ∉ file_keys) /\
  exists a' cmd, Update env after_space (MsgKey "R") = Some (a', cmd).
Proof.
  assert (("R" : string) ∉ file_keys) as Hkey by compute_done.
  split; [exact env_fits|]. split; [exact env_decodes|].
  split; [exact reachable_after_space|]. split; [exact Hkey|].
  exact (Update_returns env after_space (MsgKey "R") env_fits env_decodes
           reachable_after_space Hkey).
Defined.

Lemma View_rows_window_witness :
  GoInt.in_range (cursor after_space) /\
  Z.of_nat (length (choices after_space)) <= GoInt.max_int /\
  exists rows, View_rows after_space = Some rows /\ (length rows <= 16)%nat.
Proof.
  assert (GoInt.in_range (cursor after_space)) as Hc by (by vm_compute).
  assert (Z.of_nat (length (choices after_space)) <= GoInt.max_int) as Hfit by done.
  split; [exact Hc|]. split; [exact Hfit|].
  destruct (View_rows_window after_space Hc Hfit) as (rows & Hr & Hl & _).
  exists rows. by split.
Defined.

Lemma View_returns_witness :
  env_listings_fit env /\ ui_reachable env after_space /\
  exists text, View after_space = Some text.
Proof.
  split; [exact env_fits|]. split; [exact reachable_after_space|].
  exact (View_returns env after_space env_fits reachable_after_space).
Defined.

Lemma Update_quit_witness :
  ("q" : string) ∈ ["ctrl+c"; "q"]%string /\
  live_decoders (app_tracksQueue after_space) /\
  exists a', Update env after_space (MsgKey "q") = Some (a', CmdQuit) /\
    queue (app_tracksQueue a') = queue (app_tracksQueue after_space) /\
    ctrl_Streamer (ctrl (app_tracksQueue a')) = None.
Proof.
  assert (("q" : string) ∈ ["ctrl+c"; "q"]%string) as Hkey by compute_done.
  assert (live_decoders (app_tracksQueue after_space)) as Hlive.
  { intros t Ht. vm_compute in Ht. apply list_elem_of_singleton in Ht as ->.
    exists 0%nat. split; [reflexivity|]. by eexists. }
  split; [exact Hkey|]. split; [exact Hlive|].
  destruct (Update_quit env after_space "q" Hkey Hlive) as (a' & Hu & Hq & _ & Hc & _).
  exists a'. by split.
Defined.

End Checks.
